(** * Cortex: ingester write-ahead log and query-range splitter

    A shallow embedding of [pkg/querier/frontend/split_by_day.go] and
    [pkg/ingester/wal.go], with the properties the specification states
    about them.

    Conventions.
    - Go's [int64] is a [Z] together with an explicit two's-complement
      wrap ([Int64.wrap]); [/] and [%] truncate towards zero ([Z.quot],
      [Z.rem]) and panic on a zero divisor.
    - A Go function that can panic or loop returns an [outcome]; a Go
      function that returns an [error] returns a [result].
    - Go maps are [gmap]s; pointers that may be [nil] are [option]s. *)

From Stdlib Require Import ZArith Lia.
From stdpp Require Import gmap strings list fin_maps sorting.

Local Open Scope Z_scope.

(** ** Machine integers *)

Module Int64.

Definition min_int64 : Z := - 2 ^ 63.
Definition max_int64 : Z := 2 ^ 63 - 1.

Definition in_range (z : Z) : Prop := min_int64 <= z <= max_int64.

(** Two's-complement reduction of a mathematical integer to 64 bits. *)
Definition wrap (z : Z) : Z := (z + 2 ^ 63) mod 2 ^ 64 - 2 ^ 63.

Definition add (a b : Z) : Z := wrap (a + b).
Definition sub (a b : Z) : Z := wrap (a - b).
Definition mul (a b : Z) : Z := wrap (a * b).

(** [a / b]: truncated division; [None] is the run-time panic on [b = 0]. *)
Definition quot (a b : Z) : option Z :=
  if decide (b = 0) then None else Some (wrap (Z.quot a b)).

(** [a % b]: the sign follows the dividend; [None] is the panic on [b = 0]. *)
Definition rem (a b : Z) : option Z :=
  if decide (b = 0) then None else Some (Z.rem a b).

End Int64.

(** ** Outcomes of Go code *)

(** What running a Go function yields: a value, a run-time panic, or no
    answer within the given number of loop iterations. *)
Inductive outcome (A : Type) : Type :=
  | Done (a : A)
  | Panics
  | OutOfFuel.
Arguments Done {A} a.
Arguments Panics {A}.
Arguments OutOfFuel {A}.

(** A Go [(T, error)] pair: [Err e] is a non-nil error. *)
Inductive result (E A : Type) : Type :=
  | Ok (a : A)
  | Err (e : E).
Arguments Ok {E A} a.
Arguments Err {E A} e.

(** ** The splitter ([split_by_day.go]) *)

Module Frontend.

(** [const millisecondPerDay = int64(24 * time.Hour / time.Millisecond)] *)
Definition millisecondPerDay : Z := 86400000.

Record queryRangeRequest : Type := mkReq {
  path : string;
  start : Z;
  end_ : Z;
  step : Z;
  query : string
}.

#[export] Instance queryRangeRequest_eq_dec : EqDecision queryRangeRequest.
Proof. solve_decision. Defined.

(** [nextDayBoundary]: "Round up to the step before the next day boundary."
    [[
      offsetToDayBoundary := step - (t % millisecondPerDay % step)
      t = ((t / millisecondPerDay) + 1) * millisecondPerDay
      return t - offsetToDayBoundary
    ]] *)
Definition nextDayBoundary (t step : Z) : option Z :=
  r1 ← Int64.rem t millisecondPerDay;
  r2 ← Int64.rem r1 step;
  let offsetToDayBoundary := Int64.sub step r2 in
  q ← Int64.quot t millisecondPerDay;
  let t' := Int64.mul (Int64.add q 1) millisecondPerDay in
  Some (Int64.sub t' offsetToDayBoundary).

(** The [for] loop of [splitQuery]; [start0] is the loop variable [start]
    and [reqs] the slice built so far.
    [[
      for start := r.start; start < r.end; start = nextDayBoundary(start, r.step) + r.step {
        end := nextDayBoundary(start, r.step)
        if end+r.step >= r.end { end = r.end }
        reqs = append(reqs, queryRangeRequest{r.path, start, end, r.step, r.query})
      }
    ]] *)
Fixpoint splitQuery_loop (fuel : nat) (r : queryRangeRequest) (start0 : Z)
    (reqs : list queryRangeRequest) : outcome (list queryRangeRequest) :=
  if bool_decide (start0 < end_ r) then
    match fuel with
    | O => OutOfFuel
    | S fuel' =>
        match nextDayBoundary start0 (step r) with
        | None => Panics
        | Some e =>
            let e' := if bool_decide (Int64.add e (step r) >= end_ r)
                      then end_ r else e in
            let reqs' := reqs ++ [mkReq (path r) start0 e' (step r) (query r)] in
            match nextDayBoundary start0 (step r) with
            | None => Panics
            | Some nb => splitQuery_loop fuel' r (Int64.add nb (step r)) reqs'
            end
        end
    end
  else Done reqs.

Definition splitQuery (fuel : nat) (r : queryRangeRequest)
    : outcome (list queryRangeRequest) :=
  splitQuery_loop fuel r (start r) [].

(** The step-sample set of a query: [start, start+step, ...] up to and
    including [end]. *)
Definition in_steps (q : queryRangeRequest) (x : Z) : Prop :=
  ∃ k : Z, 0 <= k ∧ x = start q + k * step q ∧ x <= end_ q.

(** *** Responses

    The types below are declared outside the three files modelled here;
    only the fields the code touches are kept.  [model.Vector] and
    [model.Matrix] are slices of pointers, so an element may be [nil]
    ([None]).  Sample values are [float64] in Go; the merge code never
    inspects them, so the value type [V] is left abstract. *)

(** Go [error] values, identified with their message. *)
Definition error : Type := string.

(** [model.Metric] is a [map[LabelName]LabelValue]. *)
Abbreviation Metric := (gmap string string).

Section Responses.
Context {V : Type}.

Record SamplePair : Type := mkPair { Timestamp : Z; Value : V }.

Record SampleStream : Type := mkStream {
  stream_Metric : Metric;
  Values : list SamplePair
}.

Record Sample : Type := mkSample {
  sample_Metric : Metric;
  sample_Value : V;
  sample_Timestamp : Z
}.

Definition Vector : Type := list (option Sample).
Definition Matrix : Type := list (option SampleStream).

(** [model.ValueType]; [ValNone] is the zero value. *)
Inductive ValueType : Type :=
  ValNone | ValScalar | ValVector | ValMatrix | ValString.

(** The dynamic type of a [model.Value] interface value. *)
Inductive ModelValue : Type :=
  | ValueNil
  | ValueVector (v : Vector)
  | ValueMatrix (m : Matrix)
  | ValueOther.

(** Modelled from the spec: the "typed data payload" of a response; the
    declaration of [queryRangeResponse] lies outside the files modelled
    here, which use its fields [ResultType] and [Result]. *)
Record queryRangeResponse : Type := mkData {
  ResultType : ValueType;
  Result : ModelValue
}.

(** Modelled from the spec: the response envelope "with status and a
    typed data payload"; [apiResponse] is declared outside the files
    modelled here. *)
Record apiResponse : Type := mkApi {
  Status : string;
  Data : queryRangeResponse
}.

(** [&apiResponse{}]: every field at its zero value. *)
Definition empty_apiResponse : apiResponse :=
  mkApi "" (mkData ValNone ValueNil).

(** [type response struct { req; resp *apiResponse; err error }] *)
Record response : Type := mkResponse {
  req : queryRangeRequest;
  resp : option apiResponse;
  err : option error
}.

(** [sort.Sort(byFirstTime(responses))], with
    [Less(i, j) = a[i].req.start < a[j].req.start].  Go's [sort.Sort]
    is not stable; the model fixes one sorted arrangement. *)
Definition byFirstTime_le (a b : response) : Prop :=
  start (req a) <= start (req b).

#[export] Instance byFirstTime_le_dec (a b : response) :
  Decision (byFirstTime_le a b).
Proof. unfold byFirstTime_le. apply _. Defined.

Definition sort_byFirstTime (l : list response) : list response :=
  merge_sort byFirstTime_le l.

(** [[
      var output model.Vector
      for _, resp := range resps {
        output = append(output, resp.resp.Data.Result.(model.Vector)...)
      }
    ]]
    A nil [resp.resp] or a failed type assertion panics. *)
Fixpoint vectorMerge_loop (resps : list response) (output : Vector)
    : outcome Vector :=
  match resps with
  | [] => Done output
  | r :: resps' =>
      match resp r with
      | Some a =>
          match Result (Data a) with
          | ValueVector v => vectorMerge_loop resps' (output ++ v)
          | _ => Panics
          end
      | None => Panics
      end
  end.

Definition vectorMerge (resps : list response)
    : outcome (option apiResponse * option error) :=
  match vectorMerge_loop resps [] with
  | Done output =>
      Done (Some (mkApi "" (mkData ValVector (ValueVector output))), None)
  | Panics => Panics
  | OutOfFuel => OutOfFuel
  end.

(** [Metric.String()] and the order in which [range] visits a Go map
    are supplied by the environment: the first is a library function,
    the second is left unspecified by the language. *)
Variable Metric_String : Metric → string.
Variable range_map : gmap string SampleStream → list (string * SampleStream).

(** The inner loop of [matrixMerge] over one response's matrix.
    [[
      metric := stream.Metric.String()
      existing, ok := output[metric]
      if !ok { output[metric] = stream; continue }
      existing.Values = append(existing.Values, stream.Values...)
    ]]
    The map holds pointers; updating the pointee is modelled by
    writing the updated stream back under the same key. *)
Fixpoint matrixMerge_streams (matrix : Matrix)
    (output : gmap string SampleStream) : outcome (gmap string SampleStream) :=
  match matrix with
  | [] => Done output
  | None :: _ => Panics
  | Some stream :: matrix' =>
      let metric := Metric_String (stream_Metric stream) in
      match output !! metric with
      | None => matrixMerge_streams matrix' (<[metric := stream]> output)
      | Some existing =>
          let existing' :=
            mkStream (stream_Metric existing) (Values existing ++ Values stream) in
          matrixMerge_streams matrix' (<[metric := existing']> output)
      end
  end.

Fixpoint matrixMerge_loop (resps : list response)
    (output : gmap string SampleStream) : outcome (gmap string SampleStream) :=
  match resps with
  | [] => Done output
  | r :: resps' =>
      match resp r with
      | Some a =>
          match Result (Data a) with
          | ValueMatrix matrix =>
              match matrixMerge_streams matrix output with
              | Done output' => matrixMerge_loop resps' output'
              | o => o
              end
          | _ => Panics
          end
      | None => Panics
      end
  end.

(** [[
      result := make(model.Matrix, len(output))
      for _, stream := range output { result = append(result, stream) }
    ]]
    [make] with a length (not a capacity) yields [len(output)] nil
    entries, and [append] adds the streams after them. *)
Definition matrixMerge (resps : list response)
    : outcome (option apiResponse * option error) :=
  match matrixMerge_loop resps ∅ with
  | Done output =>
      let result : Matrix :=
        replicate (size output) None
        ++ ((λ kv, Some (snd kv)) <$> range_map output) in
      Done (Some (mkApi "" (mkData ValMatrix (ValueMatrix result))), None)
  | Panics => Panics
  | OutOfFuel => OutOfFuel
  end.

(** *** The fan-out executor ([splitByDay.Do])

    One goroutine per sub-query calls [s.downstream.Do(ctx, req)]
    once and sends one [response] carrying its own [req] on the
    unbuffered channel [resps].  The order in which the sends are
    received is the scheduler's choice: it is the list [arrivals].
    Receiving when nothing is left to arrive blocks for ever. *)

Record gather_state : Type := mkGather {
  responses : list response;
  firstErr : option error;
  cancelled_at : list nat;  (* for each call of [cancel()] made by the
                               loop, how many values had been received *)
  received : nat            (* values taken from [resps] so far *)
}.

(** [[
      case resp := <-resps:
        if resp.err != nil {
          if firstErr == nil { firstErr = resp.err; cancel() }
          continue
        }
        responses = append(responses, resp)
    ]] *)
Definition gather_step (st : gather_state) (rsp : response) : gather_state :=
  match err rsp with
  | Some e =>
      match firstErr st with
      | None =>
          mkGather (responses st) (Some e)
                   (cancelled_at st ++ [received st]) (S (received st))
      | Some _ =>
          mkGather (responses st) (firstErr st) (cancelled_at st)
                   (S (received st))
      end
  | None =>
      mkGather (responses st ++ [rsp]) (firstErr st) (cancelled_at st)
               (S (received st))
  end.

(** [for range reqs { select { case resp := <-resps: ... } }] *)
Fixpoint gather (reqs : list queryRangeRequest) (arrivals : list response)
    (st : gather_state) : option gather_state :=
  match reqs with
  | [] => Some st
  | _ :: reqs' =>
      match arrivals with
      | [] => None
      | rsp :: arrivals' => gather reqs' arrivals' (gather_step st rsp)
      end
  end.

(** The same loop next to its goroutines, one step at a time.  A
    goroutine is first inside [s.downstream.Do] ([calling]); when that
    call returns, with whatever result, it waits to send its response
    ([sending]); the loop takes one waiting response per iteration. *)
Record fanout : Type := mkFanout {
  calling : list queryRangeRequest;
  sending : list response;
  main_loop : gather_state;
  todo : nat                  (* iterations of the loop still to run *)
}.

Inductive fanout_step : fanout → fanout → Prop :=
  | downstream_returns c1 q c2 snd st n rp er :
      fanout_step (mkFanout (c1 ++ q :: c2) snd st n)
                  (mkFanout (c1 ++ c2) (snd ++ [mkResponse q rp er]) st n)
  | loop_receives cl s1 rsp s2 st n :
      fanout_step (mkFanout cl (s1 ++ rsp :: s2) st (S n))
                  (mkFanout cl (s1 ++ s2) (gather_step st rsp) n).

(** What one call of [Do] did: the sub-queries handed to the
    downstream (one goroutine and one downstream call each), the
    final state of the gathering loop, and the returned pair. *)
Record Do_run : Type := mkRun {
  dispatched : list queryRangeRequest;
  gathered : gather_state;
  merged : list response;   (* the sorted slice given to the merge step *)
  ret : option apiResponse * option error
}.

Inductive Do_outcome : Type :=
  | Returns (run : Do_run)
  | DoPanics
  | DoBlocks        (* waits on [resps] for ever *)
  | DoOutOfFuel.

(** The part of [Do] after the error check: sort, then merge by the
    dynamic type of the first result. *)
Definition merge_responses (reqs : list queryRangeRequest) (st : gather_state)
    : Do_outcome :=
  let sorted := sort_byFirstTime (responses st) in
  match sorted with
  | [] => Returns (mkRun reqs st sorted (Some empty_apiResponse, None))
  | first :: _ =>
      match resp first with
      | None => DoPanics
      | Some a =>
          let finish o :=
            match o with
            | Done p => Returns (mkRun reqs st sorted p)
            | Panics => DoPanics
            | OutOfFuel => DoOutOfFuel
            end in
          match Result (Data a) with
          | ValueVector _ => finish (vectorMerge sorted)
          | ValueMatrix _ => finish (matrixMerge sorted)
          | _ => Returns (mkRun reqs st sorted
                            (None, Some "unexpected response type"))
          end
      end
  end.

Definition gather_init : gather_state := mkGather [] None [] 0.

(** The state right after the [go] statements. *)
Definition fanout_init (reqs : list queryRangeRequest) : fanout :=
  mkFanout reqs [] gather_init (length reqs).

Definition Do (fuel : nat) (arrivals : list response) (r : queryRangeRequest)
    : Do_outcome :=
  match splitQuery fuel r with
  | Panics => DoPanics
  | OutOfFuel => DoOutOfFuel
  | Done reqs =>
      match gather reqs arrivals gather_init with
      | None => DoBlocks
      | Some st =>
          match firstErr st with
          | Some e => Returns (mkRun reqs st [] (None, Some e))
          | None => merge_responses reqs st
          end
      end
  end.

End Responses.

Arguments SamplePair : clear implicits.
Arguments SampleStream : clear implicits.
Arguments Sample : clear implicits.
Arguments Vector : clear implicits.
Arguments Matrix : clear implicits.
Arguments ModelValue : clear implicits.
Arguments queryRangeResponse : clear implicits.
Arguments apiResponse : clear implicits.
Arguments response : clear implicits.
Arguments gather_state : clear implicits.
Arguments fanout : clear implicits.
Arguments Do_run : clear implicits.
Arguments Do_outcome : clear implicits.

End Frontend.

(** ** The write-ahead log ([wal.go]) *)

Module Ingester.

Definition error : Type := string.

(** [path.Join(dir, name)] for the two fixed sub-directory names. *)
Definition path_Join (dir name : string) : string := dir +:+ "/" +:+ name.

(** [WALConfig]; [checkpointDuration] is a [time.Duration] in nanoseconds. *)
Record WALConfig : Type := mkConfig {
  enabled : bool;
  recover_ : bool;
  dir : string;
  checkpointDuration : Z
}.

Abbreviation LabelPairs := (list (string * string)).

Section WAL.
(** [V]: sample values ([float64]); [chunk]: wire chunks; [desc]: chunk
    descriptors; [series]: [memorySeries]; [W]: an open [wal.WAL];
    [B]: the bytes of one log record. *)
Context {V chunk desc series W B : Type}.

(** *** Log records (generated from the protobuf schema) *)

Record Labels : Type := mkLabels {
  labels_Fingerprint : Z;
  labels_Labels : LabelPairs
}.

Record Sample : Type := mkSample {
  sample_Fingerprint : Z;
  sample_Timestamp : Z;
  sample_Value : V
}.

(** The Go type [Record]. *)
Record WalRecord : Type := mkRecord {
  record_UserId : string;
  record_Labels : list Labels;
  record_Samples : list Sample
}.

(** The Go type [Series]. *)
Record Series : Type := mkSeries {
  series_UserId : string;
  series_Fingerprint : Z;
  series_Labels : LabelPairs;
  series_Chunks : list chunk
}.

(** *** Collaborators

    The in-memory store and the segmented log are used by [wal.go]
    but defined elsewhere; the model is parametric in them. *)

Class MemoryStore : Type := {
  (** [userStates.getOrCreate]: the only failure is a missing tenant. *)
  getOrCreate_err : string → option error;
  (** [state.createSeriesWithFingerprint(fp, labels, record)]: the new
      series, which the store puts into [fpToSeries]. *)
  createSeries : gmap Z series → Z → LabelPairs → result error series;
  setChunks : series → list desc → result error series;
  (** [series.add(pair)]: the series afterwards and the error, if any. *)
  add : series → Z → V → series * option error;
  chunkDescs : series → list desc;
  labels : series → LabelPairs;
  fromWireChunks : list chunk → result error (list desc);
  toWireChunks : list desc → result error (list chunk)
}.

Class Codec : Type := {
  marshalRecord : WalRecord → result error B;
  marshalSeries : Series → result error B;
  unmarshalRecord : B → result error WalRecord;
  unmarshalSeries : B → result error Series
}.

(** [github.com/prometheus/tsdb/wal].  Every operation yields the log
    afterwards and its error, if any. *)
Class SegmentedLog : Type := {
  wal_Log : W → B → W * option error;
  wal_Segments : W → result error (Z * Z);
  wal_Truncate : W → Z → W * option error;
  wal_Close : W → W * option error
}.

(** The directory tree the logs live in: [wal.New] opens a log for
    writing; [wal.NewSegmentsReader] with [wal.NewReader] yields the
    records that [Next] delivers and the value of [Err] afterwards. *)
Record Disk : Type := mkDisk {
  wal_New : string → result error W;
  wal_NewSegmentsReader : string → result error (list B * option error)
}.

Context `{!MemoryStore, !Codec, !SegmentedLog}.

(** [userState.fpToSeries] and [userStates]. *)
Abbreviation userState := (gmap Z series).
Abbreviation userStates := (gmap string (gmap Z series)).

Record Ingester : Type := mkIngester {
  userStates_ : userStates
}.

(** [type wrapper struct]; [quit_closed] is the state of the channel
    [quit], [running] tells whether the goroutine of [run] is alive,
    and [logged] collects the lines written to [util.Logger]. *)
Record wrapper : Type := mkWrapper {
  cfg : WALConfig;
  ingester : Ingester;
  quit_closed : bool;
  running : bool;
  lastCheckpointSegment : Z;
  lastSamplesSegment : Z;
  samples : W;
  checkpoints : W;
  logged : list string
}.

Definition set_ingester (w : wrapper) (i : Ingester) : wrapper :=
  mkWrapper (cfg w) i (quit_closed w) (running w) (lastCheckpointSegment w)
            (lastSamplesSegment w) (samples w) (checkpoints w) (logged w).
Definition set_logged (w : wrapper) (l : list string) : wrapper :=
  mkWrapper (cfg w) (ingester w) (quit_closed w) (running w)
            (lastCheckpointSegment w) (lastSamplesSegment w) (samples w)
            (checkpoints w) l.
Definition set_samples (w : wrapper) (s : W) : wrapper :=
  mkWrapper (cfg w) (ingester w) (quit_closed w) (running w)
            (lastCheckpointSegment w) (lastSamplesSegment w) s
            (checkpoints w) (logged w).
Definition set_checkpoints (w : wrapper) (c : W) : wrapper :=
  mkWrapper (cfg w) (ingester w) (quit_closed w) (running w)
            (lastCheckpointSegment w) (lastSamplesSegment w) (samples w)
            c (logged w).
Definition set_lastCheckpointSegment (w : wrapper) (n : Z) : wrapper :=
  mkWrapper (cfg w) (ingester w) (quit_closed w) (running w) n
            (lastSamplesSegment w) (samples w) (checkpoints w) (logged w).
Definition set_lastSamplesSegment (w : wrapper) (n : Z) : wrapper :=
  mkWrapper (cfg w) (ingester w) (quit_closed w) (running w)
            (lastCheckpointSegment w) n (samples w) (checkpoints w) (logged w).

(** *** [Stop] and [Log] *)

(** [[
      close(w.quit)
      w.wait.Wait()
      w.samples.Close()
      w.checkpoints.Close()
    ]]
    Closing a closed channel is a run-time panic.  [Wait] returns once
    the loop of [run] has seen the closed channel and left. *)
Definition Stop (w : wrapper) : outcome wrapper :=
  if quit_closed w then Panics
  else
    Done (mkWrapper (cfg w) (ingester w) true false
            (lastCheckpointSegment w) (lastSamplesSegment w)
            (fst (wal_Close (samples w))) (fst (wal_Close (checkpoints w)))
            (logged w)).

(** [func (noop) Stop() {}] *)
Definition noop_Stop (u : unit) : outcome unit := Done u.

(** [noop.Log]: [return nil]. *)
Definition noop_Log (u : unit) (record : WalRecord) : unit * option error :=
  (u, None).

Definition Log (w : wrapper) (record : WalRecord) : wrapper * option error :=
  match marshalRecord record with
  | Err e => (w, Some e)
  | Ok buf =>
      let '(s, e) := wal_Log (samples w) buf in (set_samples w s, e)
  end.

(** [isStopped]: a receive on [quit] succeeds exactly when it is closed. *)
Definition isStopped (w : wrapper) : bool := quit_closed w.

(** *** The checkpointer *)

(** [[
      wireChunks, err := toWireChunks(series.chunkDescs)
      buf, err := proto.Marshal(&Series{userID, int64(fp), series.labels(), wireChunks})
      return w.checkpoints.Log(buf)
    ]] *)
Definition checkpointSeries (c : W) (userID : string) (fp : Z) (s : series)
    : W * option error :=
  match toWireChunks (chunkDescs s) with
  | Err e => (c, Some e)
  | Ok wireChunks =>
      match marshalSeries (mkSeries userID fp (labels s) wireChunks) with
      | Err e => (c, Some e)
      | Ok buf => wal_Log c buf
      end
  end.

(** The pairs visited by the two nested [range] loops of [checkpoint].
    Go leaves the order open; the model takes the one of [map_to_list]. *)
Definition live_series (us : userStates) : list (string * Z * series) :=
  '(userID, state) ← map_to_list us;
  '(fp, s) ← map_to_list state;
  [(userID, fp, s)].

(** [numSeries += state.fpToSeries.length()] over all tenants. *)
Definition numSeries (us : userStates) : Z :=
  foldr (λ '(_, state) n, n + Z.of_nat (size state)) 0 (map_to_list us).

(** The body of the nested loops: lock, [checkpointSeries], unlock,
    leave on an error, otherwise wait for the ticker or for [quit]. *)
Fixpoint checkpoint_loop (l : list (string * Z * series)) (c : W)
    : W * option error :=
  match l with
  | [] => (c, None)
  | (userID, fp, s) :: l' =>
      match checkpointSeries c userID fp s with
      | (c', Some e) => (c', Some e)
      | (c', None) => checkpoint_loop l' c'
      end
  end.

(** [checkpoint].  [time.NewTicker] panics on a non-positive period.
    [[
      _, last, err := w.checkpoints.Segments()
      if err != nil { return err }
      if err := w.checkpoints.Truncate(w.lastCheckpointSegment); err != nil { return err }
      w.lastCheckpointSegment = last
    ]] *)
Definition checkpoint (w : wrapper) : outcome (wrapper * option error) :=
  let us := userStates_ (ingester w) in
  let n := numSeries us in
  if decide (n = 0) then Done (w, None)
  else
    let perSeriesDuration := Z.quot (checkpointDuration (cfg w)) n in
    if decide (perSeriesDuration <= 0) then Panics
    else
      match checkpoint_loop (live_series us) (checkpoints w) with
      | (c, Some e) => Done (set_checkpoints w c, Some e)
      | (c, None) =>
          let w1 := set_checkpoints w c in
          match wal_Segments c with
          | Err e => Done (w1, Some e)
          | Ok (_, last) =>
              match wal_Truncate c (lastCheckpointSegment w1) with
              | (c', Some e) => Done (set_checkpoints w1 c', Some e)
              | (c', None) =>
                  Done (set_lastCheckpointSegment (set_checkpoints w1 c') last, None)
              end
          end
      end.

(** [truncateSamples]: "removed the wal from before the checkpoint". *)
Definition truncateSamples (w : wrapper) : wrapper * option error :=
  match wal_Segments (samples w) with
  | Err e => (w, Some e)
  | Ok (_, last) =>
      match wal_Truncate (samples w) (lastSamplesSegment w) with
      | (s', Some e) => (set_samples w s', Some e)
      | (s', None) => (set_lastSamplesSegment (set_samples w s') last, None)
      end
  end.

(** One turn of the loop of [run], entered when [isStopped] is false. *)
Definition run_pass (w : wrapper) : outcome wrapper :=
  match checkpoint w with
  | Done (w1, Some e) =>
      Done (set_logged w1 (logged w1 ++ ["Error checkpointing series: " +:+ e]))
  | Done (w1, None) =>
      match truncateSamples w1 with
      | (w2, Some e) =>
          Done (set_logged w2 (logged w2 ++ ["Error truncating wal: " +:+ e]))
      | (w2, None) => Done w2
      end
  | Panics => Panics
  | OutOfFuel => OutOfFuel
  end.

(** *** Recovery *)

(** Modelled from the spec: [userStates.getOrCreate], defined outside
    [wal.go]; it yields the tenant's state and makes an empty one for a
    tenant not seen before. *)
Definition getOrCreate (us : userStates) (userID : string)
    : result error (userStates * userState) :=
  match getOrCreate_err userID with
  | Some e => Err e
  | None =>
      match us !! userID with
      | Some state => Ok (us, state)
      | None => Ok (<[userID := ∅]> us, ∅)
      end
  end.

(** Modelled from the spec: [userState.createSeriesWithFingerprint],
    defined outside [wal.go]; "create the series with those labels" and
    install it under its fingerprint. *)
Definition createSeriesWithFingerprint (state : userState) (fp : Z)
    (lbls : LabelPairs) : result error (userState * series) :=
  match createSeries state fp lbls with
  | Err e => Err e
  | Ok s => Ok (<[fp := s]> state, s)
  end.

(** The state built up by replay: the local [userStates] and the lines
    logged so far. *)
Abbreviation replay_state := (userStates * list string)%type.

(** The loop of [recoverRecords] over the records that [Next] yields. *)
Fixpoint recoverRecords_loop {M : Type} (unmarshal : B → result error M)
    (callback : M → replay_state → replay_state * option error)
    (records : list B) (st : replay_state) : replay_state * option error :=
  match records with
  | [] => (st, None)
  | buf :: records' =>
      match unmarshal buf with
      | Err e => (st, Some e)
      | Ok msg =>
          match callback msg st with
          | (st', Some e) => (st', Some e)
          | (st', None) => recoverRecords_loop unmarshal callback records' st'
          end
      end
  end.

Definition recoverRecords {M : Type} (disk : Disk) (w : wrapper)
    (name : string) (unmarshal : B → result error M)
    (callback : M → replay_state → replay_state * option error)
    (st : replay_state) : replay_state * option error :=
  match wal_NewSegmentsReader disk (path_Join (dir (cfg w)) name) with
  | Err e => (st, Some e)
  | Ok (records, readerErr) =>
      match recoverRecords_loop unmarshal callback records st with
      | (st', Some e) => (st', Some e)
      | (st', None) => (st', readerErr)
      end
  end.

(** The callback for the checkpoint log. *)
Definition recover_series (walSeries : Series) (st : replay_state)
    : replay_state * option error :=
  let '(us, lg) := st in
  match fromWireChunks (series_Chunks walSeries) with
  | Err e => (st, Some e)
  | Ok descs =>
      match getOrCreate us (series_UserId walSeries) with
      | Err e => (st, Some e)
      | Ok (us1, state) =>
          match createSeriesWithFingerprint state (series_Fingerprint walSeries)
                  (series_Labels walSeries) with
          | Err e => ((us1, lg), Some e)
          | Ok (state1, s) =>
              let put s' :=
                <[series_UserId walSeries :=
                    <[series_Fingerprint walSeries := s']> state1]> us1 in
              match setChunks s descs with
              | Err e => ((put s, lg), Some e)
              | Ok s' => ((put s', lg), None)
              end
          end
      end
  end.

(** [[
      for _, labels := range record.Labels {
        _, ok := state.fpToSeries.get(model.Fingerprint(labels.Fingerprint))
        if ok { continue }
        _, err = state.createSeriesWithFingerprint(..., labels.Labels, &Record{})
        if err != nil { return err }
      }
    ]] *)
Fixpoint recover_labels (ls : list Labels) (state : userState)
    : userState * option error :=
  match ls with
  | [] => (state, None)
  | l :: ls' =>
      match state !! labels_Fingerprint l with
      | Some _ => recover_labels ls' state
      | None =>
          match createSeriesWithFingerprint state (labels_Fingerprint l)
                  (labels_Labels l) with
          | Err e => (state, Some e)
          | Ok (state', _) => recover_labels ls' state'
          end
      end
  end.

(** [[
      for _, sample := range record.Samples {
        series, ok := state.fpToSeries.get(model.Fingerprint(sample.Fingerprint))
        if !ok { return nil }
        err := series.add(model.SamplePair{sample.Timestamp, sample.Value})
        if err != nil { level.Info(util.Logger).Log("msg", "error appending sample", "err", err) }
      }
      return nil
    ]]
    Both exits return [nil]; the result is the state and the log. *)
Fixpoint recover_samples (ss : list Sample) (state : userState)
    (lg : list string) : userState * list string :=
  match ss with
  | [] => (state, lg)
  | sample :: ss' =>
      match state !! sample_Fingerprint sample with
      | None => (state, lg)
      | Some s =>
          let '(s', e) := add s (sample_Timestamp sample) (sample_Value sample) in
          let lg' :=
            match e with
            | Some msg => lg ++ ["error appending sample: " +:+ msg]
            | None => lg
            end in
          recover_samples ss' (<[sample_Fingerprint sample := s']> state) lg'
      end
  end.

(** The callback for the sample log. *)
Definition recover_record (record : WalRecord) (st : replay_state)
    : replay_state * option error :=
  let '(us, lg) := st in
  match getOrCreate us (record_UserId record) with
  | Err e => (st, Some e)
  | Ok (us1, state) =>
      match recover_labels (record_Labels record) state with
      | (state1, Some e) => ((<[record_UserId record := state1]> us1, lg), Some e)
      | (state1, None) =>
          let '(state2, lg') := recover_samples (record_Samples record) state1 lg in
          ((<[record_UserId record := state2]> us1, lg'), None)
      end
  end.

(** [recover]: replay into a local [userStates], then swap it in. *)
Definition recover (disk : Disk) (w : wrapper) : wrapper * option error :=
  let userStates0 : replay_state := (∅, []) in
  match recoverRecords disk w "checkpoints" unmarshalSeries recover_series
          userStates0 with
  | ((_, lg), Some e) => (set_logged w (logged w ++ lg), Some e)
  | (st1, None) =>
      match recoverRecords disk w "samples" unmarshalRecord recover_record st1 with
      | ((_, lg), Some e) => (set_logged w (logged w ++ lg), Some e)
      | ((us, lg), None) =>
          (set_ingester (set_logged w (logged w ++ lg)) (mkIngester us), None)
      end
  end.

(** *** [newWAL] *)

(** The two implementations of the interface [WAL]. *)
Inductive WAL : Type :=
  | noop
  | enabled_wal (w : wrapper).

(** [[
      if !cfg.enabled { return &noop{}, nil }
      samples, err := wal.New(..., path.Join(cfg.dir, "samples"))
      if err != nil { return nil, err }
      checkpoints, err := wal.New(..., path.Join(cfg.dir, "checkpoints"))
      if err != nil { return nil, err }
      w := &wrapper{cfg, ingester, quit, samples, checkpoints}
      if cfg.recover { w.recover(context.Background()) }
      w.wait.Add(1); go w.run()
      return w, nil
    ]] *)
Definition newWAL (disk : Disk) (c : WALConfig) (i : Ingester)
    : result error WAL :=
  if negb (enabled c) then Ok noop
  else
    match wal_New disk (path_Join (dir c) "samples") with
    | Err e => Err e
    | Ok samples0 =>
        match wal_New disk (path_Join (dir c) "checkpoints") with
        | Err e => Err e
        | Ok checkpoints0 =>
            let w := mkWrapper c i false false 0 0 samples0 checkpoints0 [] in
            let w1 := if recover_ c then fst (recover disk w) else w in
            Ok (enabled_wal
                  (mkWrapper (cfg w1) (ingester w1) (quit_closed w1) true
                     (lastCheckpointSegment w1) (lastSamplesSegment w1)
                     (samples w1) (checkpoints w1) (logged w1)))
        end
    end.

(** [run], the background goroutine.
    [[
      defer w.wait.Done()
      for !w.isStopped() {
        if err := w.checkpoint(); err != nil { log; continue }
        if err := w.truncateSamples(); err != nil { log; continue }
      }
    ]]
    Inside [run] nothing closes [quit]; [fuel] bounds the number of
    passes the model follows. *)
Fixpoint run (fuel : nat) (w : wrapper) : outcome wrapper :=
  if isStopped w then
    Done (mkWrapper (cfg w) (ingester w) (quit_closed w) false
            (lastCheckpointSegment w) (lastSamplesSegment w)
            (samples w) (checkpoints w) (logged w))
  else
    match fuel with
    | O => OutOfFuel
    | S fuel' =>
        match run_pass w with
        | Done w' => run fuel' w'
        | Panics => Panics
        | OutOfFuel => OutOfFuel
        end
    end.

(** The buffers one checkpoint pass hands to the checkpoint log, when
    every series converts and encodes. *)
Fixpoint checkpoint_buffers (l : list (string * Z * series)) : result error (list B) :=
  match l with
  | [] => Ok []
  | (userID, fp, s) :: l' =>
      match toWireChunks (chunkDescs s) with
      | Err e => Err e
      | Ok wireChunks =>
          match marshalSeries (mkSeries userID fp (labels s) wireChunks) with
          | Err e => Err e
          | Ok buf =>
              match checkpoint_buffers l' with
              | Err e => Err e
              | Ok bufs => Ok (buf :: bufs)
              end
          end
      end
  end.

End WAL.

End Ingester.

(** ** Concrete collaborators

    Small executable stand-ins for the memory store, the record codec and
    the segmented log, used to run the model on concrete logs. *)

Module Simple.
Import Ingester.

(** Modelled from the spec: the time-series in-memory store ("exposed
    only via an iteration and fingerprint-lookup contract"), whose
    [memorySeries] is not part of [wal.go].  A series keeps its labels,
    its chunk list and the samples appended since; an append fails when
    the sample is out of order or a duplicate. *)
Record memorySeries : Type := mkMemorySeries {
  ms_labels : LabelPairs;
  ms_chunks : list nat;
  ms_samples : list (Z * Z)
}.

Definition ms_add (s : memorySeries) (t v : Z) : memorySeries * option error :=
  match last (ms_samples s) with
  | Some (t0, _) =>
      if bool_decide (t <= t0) then (s, Some "sample out of order or duplicate")
      else (mkMemorySeries (ms_labels s) (ms_chunks s) (ms_samples s ++ [(t, v)]), None)
  | None =>
      (mkMemorySeries (ms_labels s) (ms_chunks s) (ms_samples s ++ [(t, v)]), None)
  end.

#[export] Instance store : @MemoryStore Z nat nat memorySeries := {|
  getOrCreate_err := λ _, None;
  createSeries := λ _ _ lbls, Ok (mkMemorySeries lbls [] []);
  setChunks := λ s descs, Ok (mkMemorySeries (ms_labels s) descs (ms_samples s));
  add := ms_add;
  chunkDescs := ms_chunks;
  labels := ms_labels;
  fromWireChunks := Ok;
  toWireChunks := Ok
|}.

(** Modelled from the spec: the record codec ("round-trip fidelity"); a
    log entry is the message it encodes, and decoding it at the other
    message type fails. *)
Inductive entry : Type :=
  | RecordEntry (r : @WalRecord Z)
  | SeriesEntry (s : @Series nat)
  | Garbage.

#[export] Instance codec : @Codec Z nat entry := {|
  marshalRecord := λ r, Ok (RecordEntry r);
  marshalSeries := λ s, Ok (SeriesEntry s);
  unmarshalRecord := λ b,
    match b with RecordEntry r => Ok r | _ => Err "proto: cannot parse record" end;
  unmarshalSeries := λ b,
    match b with SeriesEntry s => Ok s | _ => Err "proto: cannot parse series" end
|}.

(** Modelled from the spec (section 4.1): a segmented append-only log.
    [segments] gives the inclusive range of identifiers stored,
    [truncate upto] discards the segments below [upto], [append] adds a
    record to the last segment. *)
Record seglog : Type := mkLog {
  first_segment : Z;
  last_segment : Z;
  entries : list (Z * entry);
  closed : bool
}.

#[export] Instance segmented : @SegmentedLog seglog entry := {|
  wal_Log := λ l b,
    (mkLog (first_segment l) (last_segment l)
           (entries l ++ [(last_segment l, b)]) (closed l), None);
  wal_Segments := λ l, Ok (first_segment l, last_segment l);
  wal_Truncate := λ l upto,
    (mkLog (Z.max (first_segment l) (Z.min upto (last_segment l)))
           (last_segment l)
           (filter (λ e, upto <= e.1) (entries l)) (closed l), None);
  wal_Close := λ l,
    (mkLog (first_segment l) (last_segment l) (entries l) true, None)
|}.

(** A directory tree holding the two logs of one ingester; scanning a
    log yields its entries in order, and [scan_error] is what the
    reader reports at the end. *)
Definition disk (samples_log checkpoints_log : seglog)
    (scan_error : string → option error) : @Disk seglog entry := {|
  wal_New := λ p,
    if decide (p = "wal/samples") then Ok samples_log
    else if decide (p = "wal/checkpoints") then Ok checkpoints_log
    else Err "no such directory";
  wal_NewSegmentsReader := λ p,
    if decide (p = "wal/samples")
    then Ok (snd <$> entries samples_log, scan_error p)
    else if decide (p = "wal/checkpoints")
    then Ok (snd <$> entries checkpoints_log, scan_error p)
    else Err "no such directory"
|}.

Definition empty_log : seglog := mkLog 0 0 [] false.

End Simple.

(** ** Example logs and ingesters *)

Module Examples.
Import Ingester Simple.

Definition config : WALConfig := mkConfig true true "wal" 3600000000000.

(** A record that declares the series of fingerprint 2 and carries a
    sample for fingerprint 1, which has no series, followed by a sample
    for fingerprint 2. *)
Definition record1 : @WalRecord Z :=
  mkRecord "tenant-1" [mkLabels 2 [("job", "api")]]
           [mkSample 1 10 5; mkSample 2 20 6].

Definition record2 : @WalRecord Z :=
  mkRecord "tenant-1" [] [mkSample 2 30 7].

Definition samples_log : seglog :=
  mkLog 0 0 [(0, RecordEntry record1); (0, RecordEntry record2)] false.

(** A checkpoint log whose only entry cannot be decoded. *)
Definition broken_checkpoints_log : seglog :=
  mkLog 0 0 [(0, Garbage)] false.

(** A checkpoint log that has reached segment 3. *)
Definition checkpoints_log : seglog := mkLog 0 3 [] false.

Definition fresh_wrapper (i : @Ingester memorySeries) (s c : seglog)
    : @wrapper memorySeries seglog :=
  mkWrapper config i false true 1 1 s c [].

(** An ingester without series and one with a single series. *)
Definition idle_ingester : @Ingester memorySeries := mkIngester ∅.

Definition busy_ingester : @Ingester memorySeries :=
  mkIngester {[ "tenant-1" := {[ 2 := mkMemorySeries [("job", "api")] [7%nat] [] ]} ]}.

End Examples.

(** ** Vocabulary of the specification *)

Module Spec.
Import Frontend.

(** The day boundary that follows [t]. *)
Definition next_day (t : Z) : Z := (t / millisecondPerDay + 1) * millisecondPerDay.

(** [((t / day) + 1) * day − (step − (t mod day) mod step)] over the
    integers. *)
Definition day_formula (t step : Z) : Z :=
  (t / millisecondPerDay + 1) * millisecondPerDay
  - (step - (t mod millisecondPerDay) mod step).

(** [v] is the largest time strictly below the next day boundary that
    is congruent to [t] modulo [step]. *)
Definition last_aligned_before (t step v : Z) : Prop :=
  v < next_day t ∧ (v - t) mod step = 0 ∧
  ∀ u : Z, u < next_day t → (u - t) mod step = 0 → u <= v.

(** The sub-queries [reqs] partition the step-sample set of [r]: same
    union, and no sample belongs to two of them. *)
Definition same_union (r : queryRangeRequest) (reqs : list queryRangeRequest) : Prop :=
  ∀ x : Z, in_steps r x ↔ ∃ q, q ∈ reqs ∧ in_steps q x.

Definition pairwise_disjoint (reqs : list queryRangeRequest) : Prop :=
  ∀ (i j : nat) qi qj x,
    reqs !! i = Some qi → reqs !! j = Some qj → i ≠ j →
    in_steps qi x → in_steps qj x → False.

Definition partitions (r : queryRangeRequest) (reqs : list queryRangeRequest) : Prop :=
  same_union r reqs ∧ pairwise_disjoint reqs.

(** The position (counting from [i]) and the error of the first failed
    response in arrival order. *)
Fixpoint first_error_from {V : Type} (i : nat) (arrivals : list (response V))
    : option (nat * error) :=
  match arrivals with
  | [] => None
  | rsp :: arrivals' =>
      match err rsp with
      | Some e => Some (i, e)
      | None => first_error_from (S i) arrivals'
      end
  end.

(** The shape of a correct split of [r] from the time [s] on: sub-queries
    that each start one step after the previous one ended, the last one
    ending at [end]. *)
Inductive day_chain (r : queryRangeRequest) : Z → list queryRangeRequest → Prop :=
  | day_chain_last s :
      s < end_ r →
      day_chain r s [mkReq (path r) s (end_ r) (step r) (query r)]
  | day_chain_cons s e tl :
      s <= e → (e - s) mod step r = 0 → e + step r < end_ r →
      day_chain r (e + step r) tl →
      day_chain r s (mkReq (path r) s e (step r) (query r) :: tl).

(** No sub-query is empty. *)
Definition all_nonempty (reqs : list queryRangeRequest) : Prop :=
  ∀ q, q ∈ reqs → start q <= end_ q.

(** Every sub-query carries the path, step and query text of [r]. *)
Definition same_query (r q : queryRangeRequest) : Prop :=
  path q = path r ∧ step q = step r ∧ query q = query r.

(** [b] starts on a later day than [a]. *)
Definition starts_a_day_later (a b : queryRangeRequest) : Prop :=
  next_day (start a) <= start b.

(** The vector a response holds, if it holds one. *)
Definition as_vector {V : Type} (r : response V) : option (Vector V) :=
  a ← resp r;
  match Result (Data a) with
  | ValueVector v => Some v
  | _ => None
  end.




(** What [Do] hands back to its caller. *)
Definition Do_returns {V : Type} (o : Do_outcome V)
    : outcome (option (apiResponse V) * option error) :=
  match o with
  | Returns run => Done (ret run)
  | DoPanics => Panics
  | DoBlocks => OutOfFuel
  | DoOutOfFuel => OutOfFuel
  end.

End Spec.

(** ** Vocabulary for the write-ahead log *)

Module WalSpec.

(** The series stored for tenant [u] under fingerprint [fp]. *)
Definition series_at {series : Type} (us : gmap string (gmap Z series))
    (u : string) (fp : Z) : option series :=
  state ← us !! u; state !! fp.

(** Putting the series [s] under tenant [u] and fingerprint [fp]. *)
Definition install_series {series : Type} (us : gmap string (gmap Z series))
    (x : string * Z * series) : gmap string (gmap Z series) :=
  let '(u, fp, s) := x in <[u := <[fp := s]> (default ∅ (us !! u))]> us.

End WalSpec.

(** More stand-ins for the memory store, with the failures the real one
    can report. *)

Module Faulty.
Import Ingester Simple.

(** Modelled from the spec: a memory store that admits at most one series
    per tenant ("multi-tenant admission control" is the store's business)
    and has no state for the empty tenant name. *)
Definition limited_store : @MemoryStore Z nat nat memorySeries := {|
  getOrCreate_err := λ u, if decide (u = "") then Some "no org id" else None;
  createSeries := λ state _ lbls,
    if decide (size state = 0%nat) then Ok (mkMemorySeries lbls [] [])
    else Err "per-user series limit exceeded";
  setChunks := λ s descs, Ok (mkMemorySeries (ms_labels s) descs (ms_samples s));
  add := ms_add;
  chunkDescs := ms_chunks;
  labels := ms_labels;
  fromWireChunks := Ok;
  toWireChunks := Ok
|}.

(** Modelled from the spec: a memory store whose chunks cannot be turned
    into wire chunks. *)
Definition unencodable_store : @MemoryStore Z nat nat memorySeries := {|
  getOrCreate_err := λ _, None;
  createSeries := λ _ _ lbls, Ok (mkMemorySeries lbls [] []);
  setChunks := λ s descs, Ok (mkMemorySeries (ms_labels s) descs (ms_samples s));
  add := ms_add;
  chunkDescs := ms_chunks;
  labels := ms_labels;
  fromWireChunks := Ok;
  toWireChunks := λ _, Err "chunk cannot be encoded"
|}.

End Faulty.

(** * Properties *)

Import Frontend Spec.

(** ** Machine arithmetic *)

Lemma wrap_in_range (z : Z) : Int64.in_range z → Int64.wrap z = z.
Proof.
  unfold Int64.in_range, Int64.min_int64, Int64.max_int64, Int64.wrap.
  intros Hz. rewrite Z.mod_small; lia.
Qed.

Lemma rem_nonneg (a b : Z) : 0 <= a → 0 < b → Int64.rem a b = Some (a mod b).
Proof.
  intros Ha Hb. unfold Int64.rem. destruct (decide (b = 0)) as [->|_]; [lia|].
  by rewrite Z.rem_mod_nonneg.
Qed.

Lemma quot_nonneg (a b : Z) :
  0 <= a <= Int64.max_int64 → 0 < b → Int64.quot a b = Some (a / b).
Proof.
  intros Ha Hb. unfold Int64.quot. destruct (decide (b = 0)) as [->|_]; [lia|].
  rewrite Z.quot_div_nonneg by lia. f_equal. apply wrap_in_range.
  assert (0 <= a / b) by (apply Z.div_pos; lia).
  assert (a / b <= a) by (apply Z.div_le_upper_bound; nia).
  unfold Int64.in_range, Int64.min_int64, Int64.max_int64 in *. lia.
Qed.

(** ** [nextDayBoundary] *)

Lemma day_parts (t : Z) :
  t = millisecondPerDay * (t / millisecondPerDay) + t mod millisecondPerDay
  ∧ 0 <= t mod millisecondPerDay < millisecondPerDay.
Proof.
  split; [apply Z.div_mod; discriminate|apply Z.mod_pos_bound; reflexivity].
Qed.

(** Away from the upper end of [int64] the code computes the formula. *)
Lemma nextDayBoundary_formula (t stp : Z) :
  0 <= t <= Int64.max_int64 - millisecondPerDay →
  0 < stp <= Int64.max_int64 →
  nextDayBoundary t stp = Some (day_formula t stp).
Proof.
  intros Ht Hs. unfold nextDayBoundary, day_formula.
  destruct (day_parts t) as [Hdm Hr].
  assert (Hq : 0 <= t / millisecondPerDay) by (apply Z.div_pos; [lia|reflexivity]).
  pose proof (Z.mod_pos_bound (t mod millisecondPerDay) stp ltac:(lia)) as Hr2.
  unfold millisecondPerDay, Int64.max_int64 in *.
  rewrite rem_nonneg by lia. cbn [mbind option_bind].
  rewrite rem_nonneg by lia. cbn [mbind option_bind].
  rewrite quot_nonneg by (unfold Int64.max_int64; lia). cbn [mbind option_bind].
  f_equal. unfold Int64.sub, Int64.mul, Int64.add.
  rewrite (wrap_in_range (t / 86400000 + 1))
    by (unfold Int64.in_range, Int64.min_int64, Int64.max_int64; lia).
  rewrite (wrap_in_range (stp - _))
    by (unfold Int64.in_range, Int64.min_int64, Int64.max_int64; lia).
  rewrite (wrap_in_range ((t / 86400000 + 1) * 86400000))
    by (unfold Int64.in_range, Int64.min_int64, Int64.max_int64; lia).
  apply wrap_in_range.
  unfold Int64.in_range, Int64.min_int64, Int64.max_int64; lia.
Qed.

(** The distance from [t] to the formula's value is a day less a whole
    number of steps. *)
Lemma day_formula_distance (t stp : Z) :
  0 < stp →
  day_formula t stp - t
  = millisecondPerDay - stp * ((t mod millisecondPerDay) / stp + 1).
Proof.
  intros Hs. unfold day_formula. destruct (day_parts t) as [Hdm _].
  pose proof (Z.div_mod (t mod millisecondPerDay) stp ltac:(lia)). lia.
Qed.

Lemma day_formula_congruent (t stp : Z) :
  0 < stp →
  (day_formula t stp - t) mod stp = 0 ↔ (stp | millisecondPerDay).
Proof.
  intros Hs. rewrite day_formula_distance by done.
  rewrite <- (Z.mod_divide millisecondPerDay stp) by lia.
  replace (millisecondPerDay - stp * ((t mod millisecondPerDay) / stp + 1))
    with (millisecondPerDay + (- ((t mod millisecondPerDay) / stp + 1)) * stp) by lia.
  by rewrite Z.mod_add by lia.
Qed.

Lemma day_formula_below (t stp : Z) :
  0 < stp → day_formula t stp < next_day t <= day_formula t stp + stp.
Proof.
  intros Hs. unfold day_formula, next_day.
  pose proof (Z.mod_pos_bound (t mod millisecondPerDay) stp Hs). lia.
Qed.

(** Two times congruent to [t] that differ are at least a step apart. *)
Lemma congruent_gap (t stp u v : Z) :
  0 < stp → (u - t) mod stp = 0 → (v - t) mod stp = 0 → v < u → v + stp <= u.
Proof.
  intros Hs Hu Hv Hlt.
  apply Z.mod_divide in Hu as [a Ha]; [|lia].
  apply Z.mod_divide in Hv as [b Hb]; [|lia].
  assert (b < a) by nia. nia.
Qed.

Lemma day_formula_last_aligned (t stp : Z) :
  0 < stp →
  last_aligned_before t stp (day_formula t stp) ↔ (stp | millisecondPerDay).
Proof.
  intros Hs. split.
  - intros (_ & Hc & _). exact (proj1 (day_formula_congruent t stp Hs) Hc).
  - intros Hd. pose proof (day_formula_below t stp Hs) as [Hlt Hge].
    apply (proj2 (day_formula_congruent t stp Hs)) in Hd.
    split; [done|]. split; [done|].
    intros u Hu Hcu. destruct (decide (u <= day_formula t stp)) as [|Hn]; [done|].
    pose proof (congruent_gap t stp u (day_formula t stp) Hs Hcu Hd ltac:(lia)). lia.
Qed.

(** C6, as amended: for [0 <= t] with [t + day] within [int64] and a
    positive [step], [nextDayBoundary t step] is
    [((t / day) + 1) * day − (step − (t mod day) mod step)]; when [step]
    divides a day, that value is the largest time strictly below the next
    day boundary that is congruent to [t] modulo [step]. *)
Theorem nextDayBoundary_largest_aligned_when_step_divides_day (t stp : Z) :
  0 <= t <= Int64.max_int64 - millisecondPerDay →
  0 < stp <= Int64.max_int64 →
  nextDayBoundary t stp = Some (day_formula t stp)
  ∧ ((stp | millisecondPerDay) → last_aligned_before t stp (day_formula t stp)).
Proof.
  intros Ht Hs. split.
  - by apply nextDayBoundary_formula.
  - apply day_formula_last_aligned. lia.
Qed.

Lemma nextDayBoundary_largest_aligned_witness :
  nextDayBoundary 0 120000 = Some 86280000
  ∧ last_aligned_before 0 120000 86280000.
Proof.
  destruct (nextDayBoundary_largest_aligned_when_step_divides_day 0 120000)
    as [Hv Hlast].
  - unfold Int64.max_int64, millisecondPerDay. lia.
  - unfold Int64.max_int64. lia.
  - split; [exact Hv|]. apply Hlast. exists 720. reflexivity.
Defined.

(** C6, as stated, fails: at [t = 0], [step = 7] the code returns
    [86399993], which is not congruent to [0] modulo [7] (the largest such
    time below the day boundary is [86399999]).  At the largest [int64]
    time the multiplication wraps and the code does not return the
    formula's value either. *)
Lemma nextDayBoundary_step_7_not_aligned :
  (nextDayBoundary 0 7 = Some (day_formula 0 7)
   ∧ day_formula 0 7 = 86399993
   ∧ ¬ last_aligned_before 0 7 (day_formula 0 7))
  ∧ nextDayBoundary Int64.max_int64 1 ≠ Some (day_formula Int64.max_int64 1).
Proof.
  split.
  - split; [reflexivity|]. split; [reflexivity|].
    intros (_ & Hc & _). vm_compute in Hc. discriminate.
  - vm_compute. discriminate.
Qed.

(** ** The empty range *)

Lemma splitQuery_empty_range (fuel : nat) (r : queryRangeRequest) :
  end_ r <= start r → splitQuery fuel r = Done [].
Proof.
  intros Hle. unfold splitQuery.
  destruct fuel; simpl; rewrite bool_decide_false by lia; reflexivity.
Qed.

(** C10: when [start >= end], [splitQuery] returns no sub-query and [Do]
    returns [&apiResponse{}] with a nil error, having dispatched nothing to
    the downstream and received nothing. *)
Theorem Do_empty_range_returns_empty_response {V : Type}
    (Metric_String : gmap string string → string)
    (range_map : gmap string (SampleStream V) → list (string * SampleStream V))
    (fuel : nat) (arrivals : list (response V)) (r : queryRangeRequest) :
  end_ r <= start r →
  splitQuery fuel r = Done []
  ∧ Do Metric_String range_map fuel arrivals r
    = Returns (mkRun [] gather_init [] (Some empty_apiResponse, None)).
Proof.
  intros Hle. pose proof (splitQuery_empty_range fuel r Hle) as Hs.
  split; [exact Hs|]. unfold Do. rewrite Hs. reflexivity.
Qed.

Lemma Do_empty_range_witness :
  splitQuery 0 (mkReq "/api/v1/query_range" 123000 0 0 "up") = Done []
  ∧ Do (V:=Z) (λ _, "{}") map_to_list 0 [] (mkReq "/api/v1/query_range" 123000 0 0 "up")
    = Returns (mkRun [] gather_init [] (Some empty_apiResponse, None)).
Proof.
  apply (Do_empty_range_returns_empty_response (V:=Z) (λ _, "{}") map_to_list 0 []
           (mkReq "/api/v1/query_range" 123000 0 0 "up")).
  simpl. lia.
Defined.

(** ** The gathering loop *)

Section Gather.
Context {V : Type}.
Implicit Types (st : gather_state V) (arrivals : list (response V)).

(** With one arrival per sub-query the loop runs through all of them. *)
Lemma gather_foldl reqs arrivals st :
  length arrivals = length reqs →
  gather reqs arrivals st = Some (foldl gather_step st arrivals).
Proof.
  revert arrivals st. induction reqs as [|q reqs IH]; intros [|rsp arrivals] st Hlen;
    simpl in *; try done.
  apply IH. lia.
Qed.

(** With too few arrivals the loop waits for ever. *)
Lemma gather_blocks reqs arrivals st :
  (length arrivals < length reqs)%nat → gather reqs arrivals st = None.
Proof.
  revert arrivals st. induction reqs as [|q reqs IH]; intros [|rsp arrivals] st Hlen;
    simpl in *; try done; try lia.
  apply IH. lia.
Qed.

Lemma gather_received arrivals st :
  received (foldl gather_step st arrivals) = (received st + length arrivals)%nat.
Proof.
  revert st. induction arrivals as [|rsp arrivals IH]; intros st; simpl; [lia|].
  rewrite IH. unfold gather_step.
  destruct (err rsp); [destruct (firstErr st)|]; simpl; lia.
Qed.

(** Once an error is recorded, later arrivals change neither the error
    nor the cancellations. *)
Lemma gather_after_error arrivals st e :
  firstErr st = Some e →
  firstErr (foldl gather_step st arrivals) = Some e
  ∧ cancelled_at (foldl gather_step st arrivals) = cancelled_at st.
Proof.
  revert st. induction arrivals as [|rsp arrivals IH]; intros st He; simpl; [done|].
  assert (firstErr (gather_step st rsp) = Some e
          ∧ cancelled_at (gather_step st rsp) = cancelled_at st) as [H1 H2].
  { unfold gather_step. destruct (err rsp); rewrite ?He; simpl; by rewrite ?He. }
  destruct (IH _ H1) as [H3 H4]. by rewrite H3, H4, H2.
Qed.

Lemma gather_before_error arrivals st :
  firstErr st = None →
  match first_error_from (received st) arrivals with
  | Some (i, e) =>
      firstErr (foldl gather_step st arrivals) = Some e
      ∧ cancelled_at (foldl gather_step st arrivals) = cancelled_at st ++ [i]
  | None =>
      firstErr (foldl gather_step st arrivals) = None
      ∧ cancelled_at (foldl gather_step st arrivals) = cancelled_at st
      ∧ responses (foldl gather_step st arrivals) = responses st ++ arrivals
  end.
Proof.
  revert st. induction arrivals as [|rsp arrivals IH]; intros st Hn; simpl.
  { by rewrite app_nil_r. }
  assert (Hstep : gather_step st rsp
                  = match err rsp with
                    | Some e => mkGather (responses st) (Some e)
                                  (cancelled_at st ++ [received st]) (S (received st))
                    | None => mkGather (responses st ++ [rsp]) (firstErr st)
                                  (cancelled_at st) (S (received st))
                    end).
  { unfold gather_step. by rewrite Hn. }
  rewrite Hstep. clear Hstep. destruct (err rsp) as [e|] eqn:He.
  - by apply gather_after_error.
  - specialize (IH (mkGather (responses st ++ [rsp]) (firstErr st)
                             (cancelled_at st) (S (received st))) Hn).
    simpl in IH.
    destruct (first_error_from (S (received st)) arrivals) as [[i e]|]; [done|].
    destruct IH as (? & ? & ->). by rewrite <- app_assoc.
Qed.

(** Every interleaving of the goroutines with the loop amounts to an
    order of arrival: the responses received so far, those waiting to be
    sent and the calls still running are together the sub-queries that
    were dispatched. *)
Lemma fanout_reachable reqs (f : fanout V) :
  rtc fanout_step (fanout_init reqs) f →
  ∃ arrivals,
    (req <$> arrivals) ++ (req <$> sending f) ++ calling f ≡ₚ reqs
    ∧ main_loop f = foldl gather_step gather_init arrivals
    ∧ (todo f + length arrivals = length reqs)%nat.
Proof.
  revert f. apply rtc_ind_r.
  { exists []. simpl. done. }
  intros f1 f2 Hrtc Hstep (arrivals & Hperm & Hmain & Htodo).
  destruct Hstep as [c1 q c2 snd st n rp er|cl s1 rsp s2 st n]; simpl in *.
  - exists arrivals. split; [|done].
    rewrite <- Hperm, fmap_app. simpl.
    rewrite <- !app_assoc. simpl.
    do 2 apply Permutation_app_head. apply Permutation_middle.
  - exists (arrivals ++ [rsp]). rewrite foldl_app, <- Hmain. simpl.
    split; [|split; [done|rewrite length_app; simpl; lia]].
    rewrite <- Hperm, !fmap_app. simpl. rewrite <- !app_assoc. simpl.
    apply Permutation_app_head.
    rewrite (Permutation_middle (req <$> s1) _ (req rsp)). done.
Qed.

(** When the loop has run its iterations no goroutine is left, and the
    loop has received one response per dispatched sub-query. *)
Lemma fanout_complete reqs (f : fanout V) :
  rtc fanout_step (fanout_init reqs) f → todo f = 0%nat →
  calling f = [] ∧ sending f = []
  ∧ ∃ arrivals, req <$> arrivals ≡ₚ reqs
                ∧ gather reqs arrivals gather_init = Some (main_loop f).
Proof.
  intros Hrtc Hdone.
  destruct (fanout_reachable reqs f Hrtc) as (arrivals & Hperm & Hmain & Htodo).
  pose proof (Permutation_length Hperm) as Hlen.
  rewrite !length_app, !length_fmap in Hlen.
  assert (calling f = []) as Hc by (apply length_zero_iff_nil; lia).
  assert (sending f = []) as Hs by (apply length_zero_iff_nil; lia).
  split; [done|]. split; [done|]. exists arrivals.
  rewrite Hc, Hs in Hperm. simpl in Hperm. rewrite app_nil_r in Hperm.
  split; [done|]. rewrite Hmain. apply gather_foldl. lia.
Qed.

(** X7: While the loop has iterations left it is never stuck for good: a
    response is waiting, or a downstream call is still to return. *)
Lemma fanout_progress reqs (f : fanout V) :
  rtc fanout_step (fanout_init reqs) f → todo f ≠ 0%nat →
  ∃ f', fanout_step f f'.
Proof.
  intros Hrtc Htodo.
  destruct (fanout_reachable reqs f Hrtc) as (arrivals & Hperm & _ & Hcount).
  pose proof (Permutation_length Hperm) as Hlen.
  rewrite !length_app, !length_fmap in Hlen.
  destruct f as [cl sn st n]. simpl in *.
  destruct sn as [|rsp sn].
  - destruct cl as [|q cl]; [simpl in *; lia|].
    eexists. apply (downstream_returns [] q cl [] st n None None).
  - destruct n as [|n]; [done|].
    eexists. apply (loop_receives cl [] rsp sn st n).
Qed.

(** When the merge step returns, it has merged the gathered responses,
    sorted by the start of their sub-query. *)
Lemma merge_responses_run Metric_String range_map reqs st (run : Do_run V) :
  merge_responses Metric_String range_map reqs st = Returns run →
  dispatched run = reqs ∧ gathered run = st ∧ merged run ≡ₚ responses st.
Proof.
  unfold merge_responses.
  pose proof (merge_sort_Permutation byFirstTime_le (responses st)) as Hperm.
  fold (sort_byFirstTime (responses st)) in Hperm.
  destruct (sort_byFirstTime (responses st)) as [|first sorted] eqn:Hsort.
  { intros; simplify_eq. done. }
  destruct (resp first) as [a|]; [|done].
  destruct (Result (Data a)).
  - intros; simplify_eq. done.
  - destruct (vectorMerge _) as [p| |]; intros; simplify_eq. done.
  - destruct (matrixMerge _ _ _) as [p| |]; intros; simplify_eq. done.
  - intros; simplify_eq. done.
Qed.

End Gather.

(** [Do] for one order of arrival, with one response per sub-query. *)
Lemma Do_for_arrival_order {V : Type}
    (Metric_String : gmap string string → string)
    (range_map : gmap string (SampleStream V) → list (string * SampleStream V))
    (fuel : nat) (r : queryRangeRequest) (reqs : list queryRangeRequest)
    (arrivals : list (response V)) :
  splitQuery fuel r = Done reqs →
  req <$> arrivals ≡ₚ reqs →
  ∃ st : gather_state V,
    gather reqs arrivals gather_init = Some st
    ∧ received st = length reqs
    ∧ match first_error_from 0 arrivals with
      | Some (i, e) =>
          firstErr st = Some e
          ∧ cancelled_at st = [i]
          ∧ Do Metric_String range_map fuel arrivals r
            = Returns (mkRun reqs st [] (None, Some e))
      | None =>
          firstErr st = None
          ∧ cancelled_at st = []
          ∧ responses st = arrivals
          ∧ Do Metric_String range_map fuel arrivals r
            = merge_responses Metric_String range_map reqs st
          ∧ ∀ run, merge_responses Metric_String range_map reqs st = Returns run →
                   dispatched run = reqs ∧ gathered run = st
                   ∧ merged run ≡ₚ arrivals
      end.
Proof.
  intros Hsplit Hperm.
  assert (Hlen : length arrivals = length reqs).
  { rewrite <- (Permutation_length Hperm). by rewrite length_fmap. }
  exists (foldl gather_step gather_init arrivals).
  pose proof (gather_foldl reqs arrivals gather_init Hlen) as Hg.
  split; [exact Hg|]. split.
  { rewrite gather_received. simpl. lia. }
  pose proof (gather_before_error arrivals gather_init eq_refl) as Hb.
  simpl in Hb. unfold Do. rewrite Hsplit, Hg.
  destruct (first_error_from 0 arrivals) as [[i e]|].
  - destruct Hb as [He Hc]. rewrite He. done.
  - destruct Hb as (He & Hc & Hr). rewrite He. simpl in Hr.
    split; [done|]. split; [done|]. split; [done|]. split; [done|].
    intros run Hrun. apply merge_responses_run in Hrun as (Hd & Hgs & Hm).
    rewrite Hr in Hm. done.
Qed.

(** C9: [Do] starts one goroutine per sub-query, all under the one
    cancellable context.  However the goroutines and the loop interleave,
    once the loop has run its iterations it has received exactly one
    response per dispatched sub-query and no goroutine is left.  With
    [arrivals] the order in which the responses were received: if one of
    them carries an error, the first in that order is recorded, [cancel]
    is called once, at that receive, the loop still drains the rest, and
    [Do] returns that error; if none does, [cancel] is not called by the
    loop and all responses enter the merge step. *)
Theorem Do_gathers_every_response_and_fails_with_first_error {V : Type}
    (Metric_String : gmap string string → string)
    (range_map : gmap string (SampleStream V) → list (string * SampleStream V))
    (fuel : nat) (r : queryRangeRequest) (reqs : list queryRangeRequest)
    (f : fanout V) :
  splitQuery fuel r = Done reqs →
  rtc fanout_step (fanout_init reqs) f →
  todo f = 0%nat →
  calling f = [] ∧ sending f = []
  ∧ received (main_loop f) = length reqs
  ∧ ∃ arrivals : list (response V),
      req <$> arrivals ≡ₚ reqs
      ∧ gather reqs arrivals gather_init = Some (main_loop f)
      ∧ match first_error_from 0 arrivals with
        | Some (i, e) =>
            firstErr (main_loop f) = Some e
            ∧ cancelled_at (main_loop f) = [i]
            ∧ Do Metric_String range_map fuel arrivals r
              = Returns (mkRun reqs (main_loop f) [] (None, Some e))
        | None =>
            firstErr (main_loop f) = None
            ∧ cancelled_at (main_loop f) = []
            ∧ responses (main_loop f) = arrivals
            ∧ Do Metric_String range_map fuel arrivals r
              = merge_responses Metric_String range_map reqs (main_loop f)
            ∧ ∀ run,
                merge_responses Metric_String range_map reqs (main_loop f)
                = Returns run →
                dispatched run = reqs ∧ gathered run = main_loop f
                ∧ merged run ≡ₚ arrivals
        end.
Proof.
  intros Hsplit Hrtc Hdone.
  destruct (fanout_complete reqs f Hrtc Hdone) as (Hc & Hs & arrivals & Hperm & Hg).
  destruct (Do_for_arrival_order Metric_String range_map fuel r reqs arrivals
              Hsplit Hperm) as (st & Hg' & Hrecv & Hcases).
  rewrite Hg in Hg'. injection Hg' as <-.
  split; [done|]. split; [done|]. split; [done|].
  exists arrivals. split; [done|]. split; [done|]. exact Hcases.
Qed.

Lemma Do_gathers_every_response_witness :
  ∃ (f : fanout Z) (arrivals : list (response Z)),
    rtc fanout_step
      (fanout_init
         [mkReq "/api/v1/query_range" 0 86280000 120000 "up";
          mkReq "/api/v1/query_range" 86400000 172800000 120000 "up"]) f
    ∧ todo f = 0%nat
    ∧ calling f = [] ∧ sending f = []
    ∧ received (main_loop f) = 2%nat
    ∧ arrivals
      = [mkResponse (mkReq "/api/v1/query_range" 86400000 172800000 120000 "up")
           None (Some "context deadline exceeded");
         mkResponse (mkReq "/api/v1/query_range" 0 86280000 120000 "up")
           (Some empty_apiResponse) None]
    ∧ firstErr (main_loop f) = Some "context deadline exceeded"
    ∧ cancelled_at (main_loop f) = [0%nat]
    ∧ Do (λ _, "{}") map_to_list 2 arrivals
         (mkReq "/api/v1/query_range" 0 172800000 120000 "up")
      = Returns (mkRun
                   [mkReq "/api/v1/query_range" 0 86280000 120000 "up";
                    mkReq "/api/v1/query_range" 86400000 172800000 120000 "up"]
                   (main_loop f) [] (None, Some "context deadline exceeded")).
Proof.
  set (q1 := mkReq "/api/v1/query_range" 0 86280000 120000 "up").
  set (q2 := mkReq "/api/v1/query_range" 86400000 172800000 120000 "up").
  set (a2 := mkResponse (V:=Z) q2 None (Some "context deadline exceeded")).
  set (a1 := mkResponse (V:=Z) q1 (Some empty_apiResponse) None).
  set (f := mkFanout [] [] (gather_step (gather_step gather_init a2) a1) 0).
  assert (Hrun : rtc fanout_step (fanout_init [q1; q2]) f).
  { eapply rtc_l.
    { apply (downstream_returns [q1] q2 [] [] gather_init 2 None
               (Some "context deadline exceeded")). }
    eapply rtc_l. { apply (loop_receives [q1] [] a2 [] gather_init 1). }
    eapply rtc_l.
    { apply (downstream_returns [] q1 [] [] (gather_step gather_init a2) 1
               (Some empty_apiResponse) None). }
    eapply rtc_l.
    { apply (loop_receives [] [] a1 [] (gather_step gather_init a2) 0). }
    apply rtc_refl. }
  destruct (Do_gathers_every_response_and_fails_with_first_error (V:=Z)
              (λ _, "{}") map_to_list 2
              (mkReq "/api/v1/query_range" 0 172800000 120000 "up")
              [q1; q2] f) as (Hc & Hs & Hrecv & arrivals & Hperm & Hg & Hcases).
  - vm_compute. reflexivity.
  - exact Hrun.
  - reflexivity.
  - exists f, [a2; a1]. split; [exact Hrun|]. split; [reflexivity|].
    split; [exact Hc|]. split; [exact Hs|]. split; [exact Hrecv|].
    split; [reflexivity|]. split; [reflexivity|]. split; [reflexivity|].
    vm_compute. reflexivity.
Defined.

(** ** Fuel *)

Lemma splitQuery_loop_unfold (fuel : nat) r s acc :
  splitQuery_loop (S fuel) r s acc
  = if bool_decide (s < end_ r) then
      match nextDayBoundary s (step r) with
      | None => Panics
      | Some e =>
          let e' := if bool_decide (Int64.add e (step r) >= end_ r)
                    then end_ r else e in
          splitQuery_loop fuel r (Int64.add e (step r))
            (acc ++ [mkReq (path r) s e' (step r) (query r)])
      end
    else Done acc.
Proof. simpl. repeat case_match; simplify_eq; reflexivity. Qed.

Lemma splitQuery_loop_exit (fuel : nat) r s acc :
  end_ r <= s → splitQuery_loop fuel r s acc = Done acc.
Proof. intros Hle. destruct fuel; simpl; by rewrite bool_decide_false by lia. Qed.

(** A run that returns keeps its result when given more fuel. *)
Lemma splitQuery_loop_mono (fuel fuel' : nat) r s acc reqs :
  splitQuery_loop fuel r s acc = Done reqs → (fuel <= fuel')%nat →
  splitQuery_loop fuel' r s acc = Done reqs.
Proof.
  revert fuel' s acc. induction fuel as [|fuel IH]; intros fuel' s acc Hrun Hle.
  - simpl in Hrun. destruct (bool_decide (s < end_ r)) eqn:Hb; [done|].
    apply bool_decide_eq_false in Hb. rewrite splitQuery_loop_exit by lia. done.
  - destruct fuel' as [|fuel']; [lia|].
    rewrite splitQuery_loop_unfold in *.
    destruct (bool_decide (s < end_ r)); [|done].
    destruct (nextDayBoundary s (step r)); [|done].
    apply IH; [done|lia].
Qed.

Lemma splitQuery_mono (fuel fuel' : nat) r reqs :
  splitQuery fuel r = Done reqs → (fuel <= fuel')%nat →
  splitQuery fuel' r = Done reqs.
Proof. apply splitQuery_loop_mono. Qed.

(** ** The splitter on a step that divides a day *)

Lemma in_steps_from (r : queryRangeRequest) (s e x : Z) :
  in_steps (mkReq (path r) s e (step r) (query r)) x
  ↔ ∃ k, 0 <= k ∧ x = s + k * step r ∧ x <= e.
Proof. reflexivity. Qed.

(** Every sample of a chain from [s] lies at [s] or later. *)
Lemma day_chain_lower r s tl q x :
  0 < step r → day_chain r s tl → q ∈ tl → in_steps q x → s <= x.
Proof.
  intros Hs Hch. revert q. induction Hch as [s Hlt|s e tl Hse Hmod Hlt Hch IH];
    intros q Hq Hx.
  - apply list_elem_of_singleton in Hq as ->. destruct Hx as (k & ? & ? & ?).
    simpl in *. nia.
  - apply elem_of_cons in Hq as [->|Hq].
    + destruct Hx as (k & ? & ? & ?). simpl in *. nia.
    + specialize (IH q Hq Hx). lia.
Qed.

(** The samples of a chain from [s] are those of the query from [s] on. *)
Lemma day_chain_union r s tl x :
  0 < step r → day_chain r s tl →
  (∃ q, q ∈ tl ∧ in_steps q x) ↔ (∃ k, 0 <= k ∧ x = s + k * step r ∧ x <= end_ r).
Proof.
  intros Hs Hch. revert x. induction Hch as [s Hlt|s e tl Hse Hmod Hlt Hch IH];
    intros x.
  - split.
    + intros (q & Hq & Hx). apply list_elem_of_singleton in Hq as ->. exact Hx.
    + intros Hx. eexists. split; [apply list_elem_of_singleton; reflexivity|exact Hx].
  - apply Z.mod_divide in Hmod as [j Hj]; [|lia].
    assert (0 <= j) by nia.
    split.
    + intros (q & Hq & Hx). apply elem_of_cons in Hq as [->|Hq].
      * destruct Hx as (k & ? & ? & ?). simpl in *. exists k. lia.
      * destruct (proj1 (IH x) (ex_intro _ q (conj Hq Hx))) as (k & ? & ? & ?).
        exists (j + 1 + k). split; [lia|]. split; [nia|lia].
    + intros (k & Hk & Hxk & Hxe). destruct (decide (x <= e)) as [Hle|Hgt].
      * eexists. split; [apply elem_of_cons; left; reflexivity|].
        exists k. simpl. lia.
      * assert (j < k) by nia.
        destruct (proj2 (IH x)) as (q & Hq & Hx).
        { exists (k - j - 1). split; [lia|]. split; [nia|lia]. }
        exists q. split; [apply elem_of_cons; by right|exact Hx].
Qed.

Lemma day_chain_disjoint r s tl :
  0 < step r → day_chain r s tl → pairwise_disjoint tl.
Proof.
  intros Hs Hch. induction Hch as [s Hlt|s e tl Hse Hmod Hlt Hch IH];
    intros i j qi qj x Hi Hj Hne Hxi Hxj.
  - destruct i, j; simpl in *; try done.
  - assert (Hfirst : ∀ q, q ∈ tl → in_steps q x →
              in_steps (mkReq (path r) s e (step r) (query r)) x → False).
    { intros q Hq Hx (k & ? & ? & ?). simpl in *.
      pose proof (day_chain_lower r _ tl q x Hs Hch Hq Hx). lia. }
    destruct i as [|i], j as [|j]; simpl in *; try done.
    + simplify_eq. eapply Hfirst; [by eapply list_elem_of_lookup_2|done..].
    + simplify_eq. eapply Hfirst; [by eapply list_elem_of_lookup_2|done..].
    + eapply (IH i j); eauto.
Qed.

Lemma day_chain_nonempty r s tl :
  day_chain r s tl → all_nonempty tl.
Proof.
  induction 1 as [s Hlt|s e tl Hse Hmod Hlt Hch IH]; intros q Hq.
  - apply list_elem_of_singleton in Hq as ->. simpl. lia.
  - apply elem_of_cons in Hq as [->|Hq]; [simpl; lia|by apply IH].
Qed.

(** One evaluation of [nextDayBoundary] inside the loop. *)
Lemma nextDayBoundary_aligned (s stp bound : Z) :
  0 <= s → 0 < stp → (stp | millisecondPerDay) →
  s < bound → bound + millisecondPerDay + stp <= Int64.max_int64 →
  ∃ v, nextDayBoundary s stp = Some v
       ∧ Int64.add v stp = v + stp
       ∧ s <= v ∧ (v - s) mod stp = 0
       ∧ next_day s <= v + stp.
Proof.
  intros Hs0 Hs Hdiv Hlt Hmax. exists (day_formula s stp).
  assert (Hstp : stp <= millisecondPerDay).
  { apply Z.divide_pos_le; [reflexivity|done]. }
  pose proof (proj2 (day_formula_last_aligned s stp Hs) Hdiv) as (Hbelow & Hc & Hmaxi).
  pose proof (day_formula_below s stp Hs) as [_ Hnext].
  destruct (day_parts s) as [Hdm Hr].
  assert (Hsv : s <= day_formula s stp).
  { apply Hmaxi; [unfold next_day; lia|]. by rewrite Z.sub_diag. }
  split. { apply nextDayBoundary_formula; unfold millisecondPerDay in *; lia. }
  split; [|done]. unfold Int64.add. apply wrap_in_range.
  unfold Int64.in_range, Int64.min_int64, Int64.max_int64, next_day in *.
  unfold millisecondPerDay in *. lia.
Qed.

Lemma splitQuery_loop_aligned (fuel : nat) r s acc :
  0 <= s → 0 < step r → (step r | millisecondPerDay) →
  s < end_ r → end_ r + millisecondPerDay + step r <= Int64.max_int64 →
  end_ r / millisecondPerDay - s / millisecondPerDay < Z.of_nat fuel →
  ∃ tl, splitQuery_loop fuel r s acc = Done (acc ++ tl) ∧ day_chain r s tl.
Proof.
  intros Hs0 Hstep Hdiv. revert s acc Hs0.
  induction fuel as [|fuel IH]; intros s acc Hs0 Hlt Hmax Hfuel.
  { assert (s / millisecondPerDay <= end_ r / millisecondPerDay)
      by (apply Z.div_le_mono; [reflexivity|lia]). lia. }
  destruct (nextDayBoundary_aligned s (step r) (end_ r) Hs0 Hstep Hdiv Hlt Hmax)
    as (v & Hnb & Hadd & Hsv & Hmod & Hnext).
  rewrite splitQuery_loop_unfold, bool_decide_true, Hnb by done. cbv zeta.
  rewrite Hadd. destruct (decide (v + step r >= end_ r)) as [Hfin|Hmore].
  - rewrite bool_decide_true by done. rewrite splitQuery_loop_exit by lia.
    eexists. split; [reflexivity|]. by constructor.
  - rewrite bool_decide_false by done.
    destruct (IH (v + step r) (acc ++ [mkReq (path r) s v (step r) (query r)]))
      as (tl & Hrun & Hch); [lia|lia|done|..].
    { assert (s / millisecondPerDay + 1 <= (v + step r) / millisecondPerDay).
      { apply Z.div_le_lower_bound; [reflexivity|]. unfold next_day in Hnext. lia. }
      lia. }
    exists (mkReq (path r) s v (step r) (query r) :: tl).
    split; [by rewrite Hrun, <- app_assoc|].
    constructor; [done|done|lia|done].
Qed.

(** X6: What the code does for the steps that divide a day ([step] one of
    the divisors of 86 400 000 ms, for instance any whole number of
    seconds that divides 86 400): with enough fuel [splitQuery] returns,
    its sub-queries partition the samples of the query, and none of them
    is empty. *)
Theorem splitQuery_partitions_when_step_divides_day (r : queryRangeRequest) :
  0 <= start r → start r < end_ r → 0 < step r →
  (step r | millisecondPerDay) →
  end_ r + millisecondPerDay + step r <= Int64.max_int64 →
  ∃ reqs,
    (∀ fuel : nat,
       end_ r / millisecondPerDay - start r / millisecondPerDay < Z.of_nat fuel →
       splitQuery fuel r = Done reqs)
    ∧ partitions r reqs ∧ all_nonempty reqs.
Proof.
  intros Hs0 Hlt Hstep Hdiv Hmax.
  set (n := Z.to_nat (end_ r / millisecondPerDay - start r / millisecondPerDay + 1)).
  assert (Hn : end_ r / millisecondPerDay - start r / millisecondPerDay < Z.of_nat n).
  { assert (start r / millisecondPerDay <= end_ r / millisecondPerDay)
      by (apply Z.div_le_mono; [reflexivity|lia]). lia. }
  destruct (splitQuery_loop_aligned n r (start r) [] Hs0 Hstep Hdiv Hlt Hmax Hn)
    as (reqs & Hrun & Hch).
  exists reqs. split; [|split; [split|]].
  - intros fuel Hfuel.
    destruct (splitQuery_loop_aligned fuel r (start r) [] Hs0 Hstep Hdiv Hlt Hmax Hfuel)
      as (reqs' & Hrun' & Hch').
    unfold splitQuery. rewrite Hrun'. simpl.
    destruct (Nat.le_ge_cases n fuel) as [Hle|Hle].
    + pose proof (splitQuery_loop_mono _ _ _ _ _ _ Hrun Hle) as Heq.
      rewrite Hrun' in Heq. by simplify_eq.
    + pose proof (splitQuery_loop_mono _ _ _ _ _ _ Hrun' Hle) as Heq.
      rewrite Hrun in Heq. by simplify_eq.
  - intros x. by rewrite (day_chain_union r (start r) reqs x Hstep Hch).
  - by eapply day_chain_disjoint.
  - by eapply day_chain_nonempty.
Qed.

Lemma splitQuery_partitions_witness :
  ∃ reqs,
    splitQuery 3 (mkReq "/api/v1/query_range" 0 172800000 120000 "up") = Done reqs
    ∧ partitions (mkReq "/api/v1/query_range" 0 172800000 120000 "up") reqs
    ∧ all_nonempty reqs.
Proof.
  destruct (splitQuery_partitions_when_step_divides_day
              (mkReq "/api/v1/query_range" 0 172800000 120000 "up"))
    as (reqs & Hrun & Hpart & Hne); simpl.
  - lia.
  - lia.
  - lia.
  - exists 720. reflexivity.
  - unfold Int64.max_int64, millisecondPerDay. lia.
  - exists reqs. split; [|done]. apply Hrun. vm_compute. reflexivity.
Defined.

(** ** The splitter on a step that does not divide a day *)

(** C1 fails on the code: a one-hour query across midnight of
    2018-09-12 with a step of 7 s is split into two sub-queries whose
    samples are not those of the query.  The sample at [1536710399000]
    belongs to the query and to no sub-query, and the second sub-query
    starts at [1536710405000], which is not a sample of the query. *)
Theorem splitQuery_step_7s_loses_alignment (fuel : nat) :
  let r := mkReq "/api/v1/query_range" 1536710000000 1536713600000 7000 "up" in
  let q1 := mkReq "/api/v1/query_range" 1536710000000 1536710398000 7000 "up" in
  let q2 := mkReq "/api/v1/query_range" 1536710405000 1536713600000 7000 "up" in
  splitQuery (2 + fuel) r = Done [q1; q2]
  ∧ (in_steps r 1536710399000
     ∧ ¬ in_steps q1 1536710399000 ∧ ¬ in_steps q2 1536710399000)
  ∧ (in_steps q2 1536710405000 ∧ ¬ in_steps r 1536710405000)
  ∧ ¬ partitions r [q1; q2].
Proof.
  intros r q1 q2.
  assert (Hin : in_steps r 1536710399000).
  { exists 57. subst r. simpl. lia. }
  assert (Hq1 : ¬ in_steps q1 1536710399000).
  { intros (k & ? & ? & ?). subst q1. simpl in *. lia. }
  assert (Hq2 : ¬ in_steps q2 1536710399000).
  { intros (k & ? & ? & ?). subst q2. simpl in *. lia. }
  split; [by apply (splitQuery_mono 2); [vm_compute|lia]|]. split; [done|]. split.
  - split.
    + exists 0. subst q2. simpl. lia.
    + intros (k & ? & ? & ?). subst r. simpl in *. lia.
  - intros [Hunion _]. apply Hunion in Hin as (q & Hq & Hx).
    apply elem_of_cons in Hq as [->|Hq]; [done|].
    apply elem_of_cons in Hq as [->|Hq]; [done|].
    by apply elem_of_nil in Hq.
Qed.

(** C8 fails on the code: a one-hour query starting five seconds before
    midnight of 2018-09-12 with a step of 11 s yields a first sub-query
    whose end lies before its start, so that it holds no sample. *)
Theorem splitQuery_step_11s_emits_empty_subquery (fuel : nat) :
  let r := mkReq "/api/v1/query_range" 1536710395000 1536713995000 11000 "up" in
  let q1 := mkReq "/api/v1/query_range" 1536710395000 1536710390000 11000 "up" in
  let q2 := mkReq "/api/v1/query_range" 1536710401000 1536713995000 11000 "up" in
  splitQuery (2 + fuel) r = Done [q1; q2]
  ∧ end_ q1 < start q1
  ∧ (∀ x : Z, ¬ in_steps q1 x)
  ∧ ¬ all_nonempty [q1; q2].
Proof.
  intros r q1 q2. split; [by apply (splitQuery_mono 2); [vm_compute|lia]|].
  split; [subst q1; simpl; lia|].
  split.
  - intros x (k & ? & ? & ?). subst q1. simpl in *. lia.
  - intros Hne. specialize (Hne q1 ltac:(apply elem_of_cons; by left)).
    subst q1. simpl in Hne. lia.
Qed.

(** ** The matrix merge *)

(** C3 fails on the code: merging the two single-stream responses does
    give one stream with values [(0,0),(1,1),(2,2),(3,3)] under the first
    stream's labels, but the returned matrix has two entries, the first of
    which is a nil pointer: the result slice is made with length
    [len(output)] and the streams are appended behind it. *)
Theorem matrixMerge_two_streams_prepends_nil {V : Type}
    (Metric_String : gmap string string → string)
    (range_map : gmap string (SampleStream V) → list (string * SampleStream V))
    (q1 q2 : queryRangeRequest) (v0 v1 v2 v3 : V) :
  (∀ m, range_map m ≡ₚ map_to_list m) →
  matrixMerge Metric_String range_map
    [mkResponse q1
       (Some (mkApi "success" (mkData ValMatrix
          (ValueMatrix [Some (mkStream ∅ [mkPair 0 v0; mkPair 1 v1])])))) None;
     mkResponse q2
       (Some (mkApi "success" (mkData ValMatrix
          (ValueMatrix [Some (mkStream ∅ [mkPair 2 v2; mkPair 3 v3])])))) None]
  = Done (Some (mkApi "" (mkData ValMatrix
            (ValueMatrix
               [None;
                Some (mkStream ∅ [mkPair 0 v0; mkPair 1 v1; mkPair 2 v2; mkPair 3 v3])]))),
          None).
Proof.
  intros Hrange. unfold matrixMerge. cbn [matrixMerge_loop resp Data Result].
  cbn [matrixMerge_streams stream_Metric Values].
  rewrite lookup_empty. rewrite lookup_insert_eq. rewrite insert_insert_eq.
  rewrite insert_empty, map_size_singleton.
  match goal with
  | |- context [range_map ?m] =>
      pose proof (Hrange m) as Hm; rewrite map_to_list_singleton in Hm;
      apply Permutation_singleton_r in Hm; rewrite Hm
  end.
  reflexivity.
Qed.

Lemma matrixMerge_two_streams_witness :
  matrixMerge (V:=Z) (λ _, "{}") map_to_list
    [mkResponse (mkReq "/api/v1/query_range" 0 1 1 "up")
       (Some (mkApi "success" (mkData ValMatrix
          (ValueMatrix [Some (mkStream ∅ [mkPair 0 0; mkPair 1 1])])))) None;
     mkResponse (mkReq "/api/v1/query_range" 2 3 1 "up")
       (Some (mkApi "success" (mkData ValMatrix
          (ValueMatrix [Some (mkStream ∅ [mkPair 2 2; mkPair 3 3])])))) None]
  = Done (Some (mkApi "" (mkData ValMatrix
            (ValueMatrix
               [None;
                Some (mkStream ∅ [mkPair 0 0; mkPair 1 1; mkPair 2 2; mkPair 3 3])]))),
          None).
Proof.
  apply (matrixMerge_two_streams_prepends_nil (V:=Z) (λ _, "{}") map_to_list).
  intros m. reflexivity.
Defined.

(** * More on the splitter and the merger *)

(** ** The shape of a split *)

Lemma splitQuery_loop_same_query (fuel : nat) r s acc reqs :
  splitQuery_loop fuel r s acc = Done reqs →
  Forall (same_query r) acc → Forall (same_query r) reqs.
Proof.
  revert s acc. induction fuel as [|fuel IH]; intros s acc Hrun Hacc.
  - simpl in Hrun. destruct (bool_decide (s < end_ r)); by simplify_eq.
  - rewrite splitQuery_loop_unfold in Hrun.
    destruct (bool_decide (s < end_ r)); [|by simplify_eq].
    destruct (nextDayBoundary s (step r)) as [e|]; [|done].
    eapply IH; [exact Hrun|]. apply Forall_app. split; [done|].
    apply Forall_singleton. done.
Qed.

(** X1: Whatever the range and the step, every sub-query that [splitQuery]
    returns has the path, the step and the query text of the request. *)
Theorem splitQuery_keeps_path_step_query (fuel : nat) r reqs :
  splitQuery fuel r = Done reqs → Forall (same_query r) reqs.
Proof. intros Hrun. eapply splitQuery_loop_same_query; [exact Hrun|constructor]. Qed.

Lemma splitQuery_keeps_path_step_query_witness :
  Forall (same_query (mkReq "/api/v1/query_range" 0 172800000 120000 "up"))
    [mkReq "/api/v1/query_range" 0 86280000 120000 "up";
     mkReq "/api/v1/query_range" 86400000 172800000 120000 "up"].
Proof.
  apply (splitQuery_keeps_path_step_query 2). vm_compute. reflexivity.
Defined.

Lemma splitQuery_loop_ends (fuel : nat) r s acc reqs :
  splitQuery_loop fuel r s acc = Done reqs → s < end_ r →
  ∃ tl, reqs = acc ++ tl
        ∧ start <$> head tl = Some s
        ∧ end_ <$> last tl = Some (end_ r).
Proof.
  revert s acc. induction fuel as [|fuel IH]; intros s acc Hrun Hlt.
  { simpl in Hrun. by rewrite bool_decide_true in Hrun by done. }
  rewrite splitQuery_loop_unfold, bool_decide_true in Hrun by done.
  destruct (nextDayBoundary s (step r)) as [e|]; [|done]. cbv zeta in Hrun.
  destruct (decide (Int64.add e (step r) >= end_ r)) as [Hfin|Hmore].
  - rewrite bool_decide_true in Hrun by done.
    rewrite splitQuery_loop_exit in Hrun by lia. simplify_eq.
    eexists. split; [reflexivity|]. done.
  - rewrite bool_decide_false in Hrun by done.
    destruct (IH _ _ Hrun ltac:(lia)) as (tl & -> & Hhd & Hlast).
    exists (mkReq (path r) s e (step r) (query r) :: tl).
    split; [by rewrite <- app_assoc|]. split; [done|].
    destruct tl as [|q tl]; [done|]. by rewrite last_cons_cons.
Qed.

(** X2: When [start < end] and [splitQuery] returns, the first sub-query
    starts at [start] and the last one ends at [end], for every step. *)
Theorem splitQuery_first_start_last_end (fuel : nat) r reqs :
  splitQuery fuel r = Done reqs → start r < end_ r →
  start <$> head reqs = Some (start r) ∧ end_ <$> last reqs = Some (end_ r).
Proof.
  intros Hrun Hlt.
  destruct (splitQuery_loop_ends fuel r (start r) [] reqs Hrun Hlt)
    as (tl & -> & Hhd & Hlast). done.
Qed.

Lemma splitQuery_first_start_last_end_witness :
  start <$> head [mkReq "/api/v1/query_range" 1536710395000 1536710390000 11000 "up";
                  mkReq "/api/v1/query_range" 1536710401000 1536713995000 11000 "up"]
  = Some 1536710395000
  ∧ end_ <$> last [mkReq "/api/v1/query_range" 1536710395000 1536710390000 11000 "up";
                   mkReq "/api/v1/query_range" 1536710401000 1536713995000 11000 "up"]
    = Some 1536713995000.
Proof.
  apply (splitQuery_first_start_last_end 2
           (mkReq "/api/v1/query_range" 1536710395000 1536713995000 11000 "up")).
  - vm_compute. reflexivity.
  - simpl. lia.
Defined.

(** ** A zero step *)

(** X3: A request with [step = 0] and [start < end] makes [splitQuery], and
    with it [Do], panic on the division by the step. *)
Theorem splitQuery_zero_step_panics {V : Type}
    (Metric_String : gmap string string → string)
    (range_map : gmap string (SampleStream V) → list (string * SampleStream V))
    (fuel : nat) (arrivals : list (response V)) (r : queryRangeRequest) :
  step r = 0 → start r < end_ r →
  splitQuery (S fuel) r = Panics
  ∧ Do Metric_String range_map (S fuel) arrivals r = DoPanics.
Proof.
  intros Hstep Hlt.
  assert (Hs : splitQuery (S fuel) r = Panics).
  { unfold splitQuery. rewrite splitQuery_loop_unfold, bool_decide_true by done.
    rewrite Hstep. reflexivity. }
  split; [exact Hs|]. unfold Do. by rewrite Hs.
Qed.

Lemma splitQuery_zero_step_panics_witness :
  splitQuery 1 (mkReq "/api/v1/query_range" 0 3600000 0 "up") = Panics
  ∧ Do (V:=Z) (λ _, "{}") map_to_list 1 []
       (mkReq "/api/v1/query_range" 0 3600000 0 "up") = DoPanics.
Proof.
  apply (splitQuery_zero_step_panics (V:=Z) (λ _, "{}") map_to_list 0 []
           (mkReq "/api/v1/query_range" 0 3600000 0 "up")).
  - reflexivity.
  - simpl. lia.
Defined.

(** ** The step before the day boundary *)

(** X4: For every positive step, dividing a day or not, [nextDayBoundary]
    returns a time before the next day boundary and less than one step
    away from it. *)
Theorem nextDayBoundary_is_within_a_step_of_the_day_boundary (t stp : Z) :
  0 <= t <= Int64.max_int64 - millisecondPerDay →
  0 < stp <= Int64.max_int64 →
  ∃ v, nextDayBoundary t stp = Some v ∧ v < next_day t <= v + stp.
Proof.
  intros Ht Hs. exists (day_formula t stp).
  split; [by apply nextDayBoundary_formula|]. apply day_formula_below. lia.
Qed.

Lemma nextDayBoundary_is_within_a_step_witness :
  ∃ v, nextDayBoundary 1536710395000 11000 = Some v
       ∧ v < next_day 1536710395000 <= v + 11000.
Proof.
  apply (nextDayBoundary_is_within_a_step_of_the_day_boundary 1536710395000 11000).
  - unfold Int64.max_int64, millisecondPerDay. lia.
  - unfold Int64.max_int64. lia.
Defined.

(** ** Termination for a positive step *)

(** For any positive step the start of the next sub-query lies on the
    next day, less than one step behind its boundary. *)
Lemma nextDayBoundary_next_start (s stp bound : Z) :
  0 <= s → 0 < stp → s < bound →
  bound + millisecondPerDay + stp <= Int64.max_int64 →
  ∃ v, nextDayBoundary s stp = Some v
       ∧ Int64.add v stp = v + stp
       ∧ next_day s <= v + stp < next_day s + stp.
Proof.
  intros Hs0 Hs Hlt Hmax. exists (day_formula s stp).
  pose proof (day_formula_below s stp Hs) as [Hbelow Hnext].
  destruct (day_parts s) as [Hdm Hr].
  split. { apply nextDayBoundary_formula; unfold millisecondPerDay in *; lia. }
  split; [|lia]. unfold Int64.add. apply wrap_in_range.
  pose proof (Z.mod_pos_bound (s mod millisecondPerDay) stp Hs).
  unfold day_formula in *.
  unfold Int64.in_range, Int64.min_int64, Int64.max_int64, next_day in *.
  unfold millisecondPerDay in *. lia.
Qed.

Lemma splitQuery_loop_terminates (fuel : nat) r s acc :
  0 <= s → 0 < step r → s < end_ r →
  end_ r + millisecondPerDay + step r <= Int64.max_int64 →
  end_ r / millisecondPerDay - s / millisecondPerDay < Z.of_nat fuel →
  ∃ tl, splitQuery_loop fuel r s acc = Done (acc ++ tl)
        ∧ Z.of_nat (length tl) <= end_ r / millisecondPerDay - s / millisecondPerDay + 1
        ∧ Forall (λ q, s <= start q) tl
        ∧ StronglySorted starts_a_day_later tl.
Proof.
  intros Hs0 Hstep. revert s acc Hs0.
  induction fuel as [|fuel IH]; intros s acc Hs0 Hlt Hmax Hfuel.
  { assert (s / millisecondPerDay <= end_ r / millisecondPerDay)
      by (apply Z.div_le_mono; [reflexivity|lia]). lia. }
  assert (Hdays : s / millisecondPerDay <= end_ r / millisecondPerDay)
    by (apply Z.div_le_mono; [reflexivity|lia]).
  destruct (nextDayBoundary_next_start s (step r) (end_ r) Hs0 Hstep Hlt Hmax)
    as (v & Hnb & Hadd & Hnext & Hnext').
  rewrite splitQuery_loop_unfold, bool_decide_true, Hnb by done. cbv zeta.
  rewrite Hadd. destruct (decide (v + step r >= end_ r)) as [Hfin|Hmore].
  - rewrite bool_decide_true by done. rewrite splitQuery_loop_exit by lia.
    eexists. split; [reflexivity|]. simpl. split; [lia|].
    split; [by apply Forall_singleton|]. repeat constructor.
  - rewrite bool_decide_false by done.
    assert (Hday : s / millisecondPerDay + 1 <= (v + step r) / millisecondPerDay).
    { apply Z.div_le_lower_bound; [reflexivity|]. unfold next_day in Hnext. lia. }
    assert (Hsnext : s <= v + step r).
    { destruct (day_parts s) as [Hdm Hr]. unfold next_day in Hnext. lia. }
    destruct (IH (v + step r) (acc ++ [mkReq (path r) s v (step r) (query r)]))
      as (tl & Hrun & Hlen & Hlow & Hsorted); [lia|lia|done|lia|].
    exists (mkReq (path r) s v (step r) (query r) :: tl).
    split; [by rewrite Hrun, <- app_assoc|]. simpl length.
    split; [lia|]. split.
    + constructor; [simpl; lia|]. eapply Forall_impl; [exact Hlow|].
      simpl. intros q Hq. lia.
    + constructor; [done|]. eapply Forall_impl; [exact Hlow|].
      intros q Hq. unfold starts_a_day_later. cbn beta iota delta [start] in *. lia.
Qed.

(** X5: For every positive step, whether or not it divides a day, and times
    from 1970 on that stay clear of the end of [int64], [splitQuery]
    returns: it produces at most one sub-query per day touched by the
    range, and each sub-query starts on a later day than the one before. *)
Theorem splitQuery_terminates_one_subquery_per_day (r : queryRangeRequest) :
  0 <= start r → start r < end_ r → 0 < step r →
  end_ r + millisecondPerDay + step r <= Int64.max_int64 →
  ∃ reqs,
    (∀ fuel : nat,
       end_ r / millisecondPerDay - start r / millisecondPerDay < Z.of_nat fuel →
       splitQuery fuel r = Done reqs)
    ∧ Z.of_nat (length reqs)
      <= end_ r / millisecondPerDay - start r / millisecondPerDay + 1
    ∧ StronglySorted starts_a_day_later reqs.
Proof.
  intros Hs0 Hlt Hstep Hmax.
  set (n := Z.to_nat (end_ r / millisecondPerDay - start r / millisecondPerDay + 1)).
  assert (Hn : end_ r / millisecondPerDay - start r / millisecondPerDay < Z.of_nat n).
  { assert (start r / millisecondPerDay <= end_ r / millisecondPerDay)
      by (apply Z.div_le_mono; [reflexivity|lia]). lia. }
  destruct (splitQuery_loop_terminates n r (start r) [] Hs0 Hstep Hlt Hmax Hn)
    as (reqs & Hrun & Hlen & _ & Hsorted).
  exists reqs. split; [|done].
  intros fuel Hfuel.
  destruct (splitQuery_loop_terminates fuel r (start r) [] Hs0 Hstep Hlt Hmax Hfuel)
    as (reqs' & Hrun' & _).
  unfold splitQuery. rewrite Hrun'. simpl.
  destruct (Nat.le_ge_cases n fuel) as [Hle|Hle].
  - pose proof (splitQuery_loop_mono _ _ _ _ _ _ Hrun Hle) as Heq.
    rewrite Hrun' in Heq. by simplify_eq.
  - pose proof (splitQuery_loop_mono _ _ _ _ _ _ Hrun' Hle) as Heq.
    rewrite Hrun in Heq. by simplify_eq.
Qed.

Lemma splitQuery_terminates_witness :
  ∃ reqs,
    splitQuery 2 (mkReq "/api/v1/query_range" 1536710395000 1536713995000 11000 "up")
    = Done reqs
    ∧ Z.of_nat (length reqs) <= 2.
Proof.
  destruct (splitQuery_terminates_one_subquery_per_day
              (mkReq "/api/v1/query_range" 1536710395000 1536713995000 11000 "up"))
    as (reqs & Hrun & Hlen & _); simpl.
  - lia.
  - lia.
  - lia.
  - unfold Int64.max_int64, millisecondPerDay. lia.
  - exists reqs. split.
    + apply Hrun. apply Z.ltb_lt. vm_compute. reflexivity.
    + etrans; [exact Hlen|]. apply Z.leb_le. vm_compute. reflexivity.
Defined.

(** ** The fan-out does not get stuck *)

Lemma fanout_progress_witness :
  ∃ f' : fanout Z,
    fanout_step
      (mkFanout [mkReq "/api/v1/query_range" 0 86280000 120000 "up"]
         [mkResponse (mkReq "/api/v1/query_range" 86400000 172800000 120000 "up")
            None (Some "context canceled")]
         gather_init 2)
      f'.
Proof.
  apply (fanout_progress
           [mkReq "/api/v1/query_range" 0 86280000 120000 "up";
            mkReq "/api/v1/query_range" 86400000 172800000 120000 "up"]).
  - eapply rtc_l; [|apply rtc_refl].
    apply (downstream_returns
             [mkReq "/api/v1/query_range" 0 86280000 120000 "up"]
             (mkReq "/api/v1/query_range" 86400000 172800000 120000 "up")
             [] [] gather_init 2 None (Some "context canceled")).
  - simpl. discriminate.
Defined.

(** ** The two merges *)

Section Merges.
Context {V : Type}.
Variable Metric_String : gmap string string → string.
Variable range_map : gmap string (SampleStream V) → list (string * SampleStream V).
Implicit Types (resps : list (response V)) (output : gmap string (SampleStream V)).

Lemma as_vector_match {A : Type} (r : response V) (f : Vector V → A) (p : A) :
  match resp r with
  | Some a => match Result (Data a) with ValueVector v => f v | _ => p end
  | None => p
  end
  = match as_vector r with Some v => f v | None => p end.
Proof.
  unfold as_vector. destruct (resp r) as [a|]; [|done]. csimpl.
  by destruct (Result (Data a)).
Qed.

Lemma mapM_cons_eq {A B : Type} (f : A → option B) (x : A) (l : list A) :
  mapM f (x :: l)
  = match f x with
    | Some y => match mapM f l with Some k => Some (y :: k) | None => None end
    | None => None
    end.
Proof. csimpl. destruct (f x); [|done]. csimpl. by destruct (mapM f l). Qed.

Lemma vectorMerge_loop_spec resps (out : Vector V) :
  vectorMerge_loop resps out
  = match mapM as_vector resps with
    | Some vs => Done (out ++ concat vs)
    | None => Panics
    end.
Proof.
  revert out. induction resps as [|r resps IH]; intros out.
  { simpl. by rewrite app_nil_r. }
  rewrite mapM_cons_eq. cbn [vectorMerge_loop].
  rewrite (as_vector_match r (λ v, vectorMerge_loop resps (out ++ v)) Panics).
  destruct (as_vector r) as [v|]; [|done].
  rewrite IH. destruct (mapM _ resps); [|done].
  simpl. by rewrite app_assoc.
Qed.

(** X8: [vectorMerge] returns the vectors of the responses joined in the
    order of the responses, under the result type "vector"; it panics
    exactly when a response is nil or holds something else than a
    vector.  It never returns an error. *)
Theorem vectorMerge_concatenates_or_panics resps :
  vectorMerge resps
  = match mapM as_vector resps with
    | Some vs =>
        Done (Some (mkApi "" (mkData ValVector (ValueVector (concat vs)))), None)
    | None => Panics
    end.
Proof.
  unfold vectorMerge. rewrite vectorMerge_loop_spec.
  by destruct (mapM _ resps).
Qed.







End Merges.


(** ** The order of arrival *)

Section ArrivalOrder.
Context {V : Type}.
Variable Metric_String : gmap string string → string.
Variable range_map : gmap string (SampleStream V) → list (string * SampleStream V).

#[local] Instance byFirstTime_le_trans : Transitive (byFirstTime_le (V:=V)).
Proof. intros a b c. unfold byFirstTime_le. lia. Qed.

#[local] Instance byFirstTime_le_total : Total (byFirstTime_le (V:=V)).
Proof. intros a b. unfold byFirstTime_le. lia. Qed.

Lemma NoDup_fmap_eq {A B : Type} (f : A → B) (l : list A) (x y : A) :
  NoDup (f <$> l) → x ∈ l → y ∈ l → f x = f y → x = y.
Proof.
  induction l as [|a l IH]; intros Hnd Hx Hy Heq; [by apply elem_of_nil in Hx|].
  rewrite fmap_cons in Hnd. apply NoDup_cons in Hnd as [Hnotin Hnd].
  apply elem_of_cons in Hx as [->|Hx]; apply elem_of_cons in Hy as [->|Hy].
  - done.
  - destruct Hnotin. rewrite Heq. by apply list_elem_of_fmap_2.
  - destruct Hnotin. rewrite <- Heq. by apply list_elem_of_fmap_2.
  - by apply IH.
Qed.

(** With distinct start times, sorting by start time forgets the order
    the responses came in. *)
Lemma sort_byFirstTime_forgets_order (l1 l2 : list (response V)) :
  l1 ≡ₚ l2 → NoDup ((λ rsp, start (req rsp)) <$> l1) →
  sort_byFirstTime l1 = sort_byFirstTime l2.
Proof.
  intros Hperm Hnd. unfold sort_byFirstTime.
  apply (StronglySorted_unique_strong byFirstTime_le).
  - intros x1 x2 Hx1 Hx2 H12 H21.
    rewrite merge_sort_Permutation in Hx1. rewrite merge_sort_Permutation in Hx2.
    rewrite <- Hperm in Hx2.
    apply (NoDup_fmap_eq (λ rsp, start (req rsp)) l1); [done..|].
    unfold byFirstTime_le in *. lia.
  - apply StronglySorted_merge_sort; apply _.
  - apply StronglySorted_merge_sort; apply _.
  - by rewrite !merge_sort_Permutation.
Qed.

Lemma no_error_first_error_from (i : nat) (arrivals : list (response V)) :
  Forall (λ rsp, err rsp = None) arrivals → first_error_from i arrivals = None.
Proof.
  intros Hall. revert i. induction Hall as [|rsp arrivals Hrsp Hall IH]; intros i.
  - done.
  - simpl. rewrite Hrsp. apply IH.
Qed.

Lemma merge_responses_returns reqs (st1 st2 : gather_state V) :
  sort_byFirstTime (responses st1) = sort_byFirstTime (responses st2) →
  Do_returns (merge_responses Metric_String range_map reqs st1)
  = Do_returns (merge_responses Metric_String range_map reqs st2).
Proof.
  intros Hsort. unfold merge_responses. cbv zeta. rewrite Hsort.
  destruct (sort_byFirstTime (responses st2)) as [|first sorted]; [done|].
  destruct (resp first) as [a|]; [|done].
  destruct (Result (Data a)); try done.
  - by destruct (vectorMerge _).
  - by destruct (matrixMerge _ _ _).
Qed.

(** X11: When no sub-query fails and the sub-queries start at distinct times,
    what [Do] returns does not depend on the order in which the
    responses arrive. *)
Theorem Do_result_independent_of_arrival_order (fuel : nat) (r : queryRangeRequest)
    (reqs : list queryRangeRequest) (arrivals1 arrivals2 : list (response V)) :
  splitQuery fuel r = Done reqs →
  NoDup (start <$> reqs) →
  req <$> arrivals1 ≡ₚ reqs →
  arrivals1 ≡ₚ arrivals2 →
  Forall (λ rsp, err rsp = None) arrivals1 →
  Do_returns (Do Metric_String range_map fuel arrivals1 r)
  = Do_returns (Do Metric_String range_map fuel arrivals2 r).
Proof.
  intros Hsplit Hnd Hperm1 Hperm Hok1.
  assert (Hperm2 : req <$> arrivals2 ≡ₚ reqs) by (by rewrite <- Hperm).
  assert (Hok2 : Forall (λ rsp, err rsp = None) arrivals2) by (by rewrite <- Hperm).
  destruct (Do_for_arrival_order Metric_String range_map fuel r reqs arrivals1
              Hsplit Hperm1) as (st1 & _ & _ & H1).
  destruct (Do_for_arrival_order Metric_String range_map fuel r reqs arrivals2
              Hsplit Hperm2) as (st2 & _ & _ & H2).
  rewrite no_error_first_error_from in H1 by done.
  rewrite no_error_first_error_from in H2 by done.
  destruct H1 as (_ & _ & Hr1 & -> & _). destruct H2 as (_ & _ & Hr2 & -> & _).
  apply merge_responses_returns. rewrite Hr1, Hr2.
  apply sort_byFirstTime_forgets_order; [done|].
  assert (Hkeys : (λ rsp : response V, start (req rsp)) <$> arrivals1
                  ≡ₚ start <$> reqs).
  { rewrite <- Hperm1, <- list_fmap_compose. done. }
  by rewrite Hkeys.
Qed.

End ArrivalOrder.

Lemma Do_result_independent_of_arrival_order_witness :
  Do_returns (V:=Z)
    (Do (λ _, "{}") map_to_list 2
       [mkResponse (mkReq "/api/v1/query_range" 86400000 172800000 120000 "up")
          (Some (mkApi "success" (mkData ValVector (ValueVector [None])))) None;
        mkResponse (mkReq "/api/v1/query_range" 0 86280000 120000 "up")
          (Some (mkApi "success" (mkData ValVector (ValueVector [])))) None]
       (mkReq "/api/v1/query_range" 0 172800000 120000 "up"))
  = Do_returns
      (Do (λ _, "{}") map_to_list 2
         [mkResponse (mkReq "/api/v1/query_range" 0 86280000 120000 "up")
            (Some (mkApi "success" (mkData ValVector (ValueVector [])))) None;
          mkResponse (mkReq "/api/v1/query_range" 86400000 172800000 120000 "up")
            (Some (mkApi "success" (mkData ValVector (ValueVector [None])))) None]
         (mkReq "/api/v1/query_range" 0 172800000 120000 "up")).
Proof.
  apply (Do_result_independent_of_arrival_order (V:=Z) (λ _, "{}") map_to_list 2
           (mkReq "/api/v1/query_range" 0 172800000 120000 "up")
           [mkReq "/api/v1/query_range" 0 86280000 120000 "up";
            mkReq "/api/v1/query_range" 86400000 172800000 120000 "up"]).
  - vm_compute. reflexivity.
  - simpl. apply NoDup_cons. split; [|apply NoDup_singleton].
    intros Hin. apply list_elem_of_singleton in Hin. discriminate Hin.
  - simpl. apply perm_swap.
  - apply perm_swap.
  - repeat constructor.
Defined.

(** * The write-ahead log *)

Import Ingester.

Section WalProperties.
Context {V chunk desc series W B : Type}.
Context `{!@MemoryStore V chunk desc series, !@Codec V chunk B, !@SegmentedLog W B}.
Implicit Types (w : @wrapper series W) (disk : @Disk W B).

(** ** Replay of the sample log *)

(** A sample whose fingerprint has no series ends the replay of its
    record: the samples after it are not looked at. *)
Lemma recover_samples_unknown_fingerprint (sample : @Sample V) ss
    (state : gmap Z series) (lg : list string) :
  state !! sample_Fingerprint sample = None →
  recover_samples (sample :: ss) state lg = (state, lg).
Proof. intros Hnone. simpl. by rewrite Hnone. Qed.

(** A sample whose series is present is appended, a failed append is
    logged, and the replay goes on with the next sample. *)
Lemma recover_samples_known_fingerprint (sample : @Sample V) ss
    (state : gmap Z series) (lg : list string) (s : series) :
  state !! sample_Fingerprint sample = Some s →
  recover_samples (sample :: ss) state lg
  = let s' := add s (sample_Timestamp sample) (sample_Value sample) in
    recover_samples ss (<[sample_Fingerprint sample := s'.1]> state)
      (match s'.2 with
       | Some msg => lg ++ ["error appending sample: " +:+ msg]
       | None => lg
       end).
Proof. intros Hsome. simpl. rewrite Hsome. by destruct (add s _ _). Qed.

(** ** [recover] and [newWAL] *)

(** [recover] touches the tenant states and the logger only, and the
    tenant states only when it succeeds. *)
Lemma recover_frame disk w :
  let r := recover disk w in
  cfg r.1 = cfg w ∧ quit_closed r.1 = quit_closed w ∧ running r.1 = running w
  ∧ lastCheckpointSegment r.1 = lastCheckpointSegment w
  ∧ lastSamplesSegment r.1 = lastSamplesSegment w
  ∧ samples r.1 = samples w ∧ checkpoints r.1 = checkpoints w
  ∧ (is_Some r.2 → ingester r.1 = ingester w).
Proof.
  unfold recover.
  destruct (recoverRecords disk w "checkpoints" _ _ _) as [[us1 lg1] [e1|]].
  { simpl. done. }
  destruct (recoverRecords disk w "samples" _ _ _) as [[us2 lg2] [e2|]]; simpl.
  - done.
  - repeat split; try done.
Qed.

(** C4 fails on the code: with the WAL enabled and [recover] set, when
    both logs open and the replay returns an error, [newWAL] drops that
    error and returns the running WAL with a nil error; the ingester is
    left with the state it had. *)
Theorem newWAL_drops_recover_error disk (c : WALConfig) (i : Ingester)
    (samples0 checkpoints0 : W) (e : error) :
  enabled c = true →
  recover_ c = true →
  wal_New disk (path_Join (dir c) "samples") = Ok samples0 →
  wal_New disk (path_Join (dir c) "checkpoints") = Ok checkpoints0 →
  (recover disk (mkWrapper c i false false 0 0 samples0 checkpoints0 [])).2 = Some e →
  ∃ w, newWAL disk c i = Ok (enabled_wal w)
       ∧ ingester w = i ∧ running w = true ∧ quit_closed w = false.
Proof.
  intros Hen Hrec Hs Hc Herr. unfold newWAL. rewrite Hen, Hrec, Hs, Hc. simpl.
  eexists. split; [reflexivity|]. simpl.
  pose proof (recover_frame disk
                (mkWrapper c i false false 0 0 samples0 checkpoints0 [])) as Hf.
  simpl in Hf. destruct Hf as (_ & Hq & _ & _ & _ & _ & _ & Hi).
  split; [apply Hi; by rewrite Herr|]. split; [done|]. exact Hq.
Qed.

(** ** [Stop] *)

(** C5, as amended: once [Stop] has returned on the enabled WAL, the quit
    channel is closed and the loop has left, and a second call of [Stop]
    does not return: it panics on closing the closed channel. *)
Theorem Stop_after_Stop_panics w w1 :
  Stop w = Done w1 →
  quit_closed w1 = true ∧ running w1 = false ∧ Stop w1 = Panics.
Proof.
  unfold Stop. intros Hs. destruct (quit_closed w); [done|].
  simplify_eq. done.
Qed.

(** ** The segment trackers *)

(** C7, as amended: when [checkpoint] or [truncateSamples] returns an
    error, its tracker is unchanged.  When [truncateSamples] succeeds,
    and when [checkpoint] succeeds with at least one live series, the
    tracker is the [last] segment read from the log just before the
    truncation up to the old tracker.  With no live series [checkpoint]
    succeeds without touching the log or the tracker. *)
Theorem segment_trackers_follow_successful_truncate w :
  match checkpoint w with
  | Done (w', Some e) => lastCheckpointSegment w' = lastCheckpointSegment w
  | Done (w', None) =>
      if decide (numSeries (userStates_ (ingester w)) = 0) then w' = w
      else ∃ c first last,
        checkpoint_loop (live_series (userStates_ (ingester w))) (checkpoints w)
          = (c, None)
        ∧ wal_Segments c = Ok (first, last)
        ∧ wal_Truncate c (lastCheckpointSegment w) = (checkpoints w', None)
        ∧ lastCheckpointSegment w' = last
  | _ => True
  end
  ∧ match truncateSamples w with
    | (w', Some e) => lastSamplesSegment w' = lastSamplesSegment w
    | (w', None) =>
        ∃ first last,
          wal_Segments (samples w) = Ok (first, last)
          ∧ wal_Truncate (samples w) (lastSamplesSegment w) = (samples w', None)
          ∧ lastSamplesSegment w' = last
    end.
Proof.
  split.
  - unfold checkpoint.
    destruct (decide (numSeries (userStates_ (ingester w)) = 0)) as [Hz|Hnz].
    { done. }
    destruct (decide (_ <= 0)); [done|].
    destruct (checkpoint_loop _ _) as [c [e|]] eqn:Hloop; [done|].
    destruct (wal_Segments c) as [[first last]|e] eqn:Hseg; [|done].
    simpl. destruct (wal_Truncate c (lastCheckpointSegment w)) as [c' [e|]] eqn:Htr;
      [done|].
    exists c, first, last. done.
  - unfold truncateSamples.
    destruct (wal_Segments (samples w)) as [[first last]|e] eqn:Hseg; [|done].
    destruct (wal_Truncate (samples w) (lastSamplesSegment w)) as [s' [e|]] eqn:Htr;
      [done|].
    exists first, last. done.
Qed.

End WalProperties.

(** * More on the write-ahead log *)

Import WalSpec.

Section WalMore.
Context {V chunk desc series W B : Type}.
Context `{!@MemoryStore V chunk desc series, !@Codec V chunk B, !@SegmentedLog W B}.
Implicit Types (w : @wrapper series W) (disk : @Disk W B).
Implicit Types (state : gmap Z series) (us : gmap string (gmap Z series)).

(** ** [newWAL] *)

(** X12: [newWAL] fails exactly when the WAL is enabled and one of the two
    logs cannot be opened, and then with that log's error; nothing that
    happens during replay makes it fail. *)
Theorem newWAL_fails_iff_a_log_cannot_be_opened disk (c : WALConfig)
    (i : Ingester) (e : error) :
  newWAL disk c i = Err e
  ↔ enabled c = true
    ∧ (wal_New disk (path_Join (dir c) "samples") = Err e
       ∨ ∃ samples0, wal_New disk (path_Join (dir c) "samples") = Ok samples0
                     ∧ wal_New disk (path_Join (dir c) "checkpoints") = Err e).
Proof.
  unfold newWAL. destruct (enabled c); simpl.
  - destruct (wal_New disk (path_Join (dir c) "samples")) as [samples0|e1].
    + destruct (wal_New disk (path_Join (dir c) "checkpoints")) as [checkpoints0|e2].
      * split; [done|]. intros [_ [?|(? & ? & ?)]]; done.
      * split.
        -- intros ?; simplify_eq. split; [done|]. right. by eexists.
        -- intros [_ [?|(? & ? & ?)]]; by simplify_eq.
    + split.
      * intros ?; simplify_eq. split; [done|]. by left.
      * intros [_ [?|(? & ? & ?)]]; by simplify_eq.
  - split; [done|]. by intros [? _].
Qed.


(** ** The checkpointer *)

Lemma numSeries_nonneg us : 0 <= numSeries us.
Proof.
  unfold numSeries. induction (map_to_list us) as [|[u state] l IH]; simpl; lia.
Qed.

Lemma quot_nonpos_iff (d n : Z) : 0 < n → Z.quot d n <= 0 ↔ d < n.
Proof.
  intros Hn. split.
  - intros Hq. destruct (decide (d < n)) as [|Hge]; [done|].
    assert (1 <= Z.quot d n); [|lia].
    rewrite Z.quot_div_nonneg by lia. apply Z.div_le_lower_bound; lia.
  - intros Hd. destruct (decide (0 <= d)) as [Hpos|Hneg].
    + rewrite Z.quot_small; lia.
    + replace d with (- (- d)) by lia. rewrite Z.quot_opp_l by lia.
      assert (0 <= Z.quot (- d) n) by (apply Z.quot_pos; lia). lia.
Qed.

(** X14: [checkpoint] panics, on starting its ticker, exactly when there is a
    live series and the configured duration, in nanoseconds, is smaller
    than the number of live series (zero and negative durations
    included). *)
Theorem checkpoint_panics_iff_duration_below_series_count w :
  checkpoint w = Panics
  ↔ 0 < numSeries (userStates_ (ingester w))
    ∧ checkpointDuration (cfg w) < numSeries (userStates_ (ingester w)).
Proof.
  pose proof (numSeries_nonneg (userStates_ (ingester w))) as Hnn.
  unfold checkpoint.
  destruct (decide (numSeries (userStates_ (ingester w)) = 0)) as [Hz|Hnz].
  { split; [done|]. lia. }
  destruct (decide (_ <= 0)) as [Hq|Hq].
  - split; [|done]. intros _. split; [lia|]. apply quot_nonpos_iff in Hq; lia.
  - split.
    + destruct (checkpoint_loop _ _) as [c [e|]]; [done|].
      destruct (wal_Segments c) as [[first last]|e]; [|done].
      simpl. by destruct (wal_Truncate c (lastCheckpointSegment w)) as [c' [e|]].
    + intros [Hpos Hd]. destruct Hq. apply quot_nonpos_iff; lia.
Qed.

(** Apart from the checkpoint log and its tracker, [checkpoint] leaves
    the WAL as it is. *)
Lemma checkpoint_frame w w' oe :
  checkpoint w = Done (w', oe) →
  cfg w' = cfg w ∧ ingester w' = ingester w ∧ quit_closed w' = quit_closed w
  ∧ running w' = running w ∧ lastSamplesSegment w' = lastSamplesSegment w
  ∧ samples w' = samples w ∧ logged w' = logged w.
Proof.
  unfold checkpoint.
  destruct (decide (numSeries (userStates_ (ingester w)) = 0)).
  { intros ?; by simplify_eq. }
  destruct (decide (_ <= 0)); [done|].
  destruct (checkpoint_loop _ _) as [c [e|]]; [intros ?; by simplify_eq|].
  destruct (wal_Segments c) as [[first last]|e]; [|intros ?; by simplify_eq].
  simpl. destruct (wal_Truncate c (lastCheckpointSegment w)) as [c' [e|]];
    intros ?; by simplify_eq.
Qed.

Lemma checkpoint_error_keeps_tracker w w' (e : error) :
  checkpoint w = Done (w', Some e) →
  lastCheckpointSegment w' = lastCheckpointSegment w.
Proof.
  unfold checkpoint.
  destruct (decide (numSeries (userStates_ (ingester w)) = 0)); [done|].
  destruct (decide (_ <= 0)); [done|].
  destruct (checkpoint_loop _ _) as [c [e1|]]; [intros ?; by simplify_eq|].
  destruct (wal_Segments c) as [[first last]|e1]; [|intros ?; by simplify_eq].
  simpl. destruct (wal_Truncate c (lastCheckpointSegment w)) as [c' [e1|]];
    intros ?; by simplify_eq.
Qed.

Lemma truncateSamples_frame w w' oe :
  truncateSamples w = (w', oe) →
  cfg w' = cfg w ∧ ingester w' = ingester w ∧ quit_closed w' = quit_closed w
  ∧ running w' = running w ∧ lastCheckpointSegment w' = lastCheckpointSegment w
  ∧ checkpoints w' = checkpoints w ∧ logged w' = logged w.
Proof.
  unfold truncateSamples.
  destruct (wal_Segments (samples w)) as [[first last]|e]; [|intros ?; by simplify_eq].
  destruct (wal_Truncate (samples w) (lastSamplesSegment w)) as [s' [e|]];
    intros ?; by simplify_eq.
Qed.

(** X15: When [checkpoint] fails, the pass of [run] logs the error and goes
    back to the top of the loop: the sample log is not truncated and
    neither tracker moves. *)
Theorem run_pass_failed_checkpoint_skips_truncation w w1 (e : error) :
  checkpoint w = Done (w1, Some e) →
  ∃ w', run_pass w = Done w'
        ∧ samples w' = samples w
        ∧ lastSamplesSegment w' = lastSamplesSegment w
        ∧ lastCheckpointSegment w' = lastCheckpointSegment w
        ∧ logged w' = logged w ++ ["Error checkpointing series: " +:+ e].
Proof.
  intros Hc. unfold run_pass. rewrite Hc. eexists. split; [reflexivity|].
  destruct (checkpoint_frame _ _ _ Hc) as (_ & _ & _ & _ & Hls & Hs & Hlg).
  pose proof (checkpoint_error_keeps_tracker w w1 e Hc) as Hlc.
  simpl. rewrite Hs, Hls, Hlg, Hlc. done.
Qed.

(** X16: A pass of [run] only reads the in-memory series: it never changes
    them, the configuration or the state of [quit], and it writes at most
    one line to the logger. *)
Theorem run_pass_only_reads_series w w' :
  run_pass w = Done w' →
  ingester w' = ingester w ∧ cfg w' = cfg w ∧ quit_closed w' = quit_closed w
  ∧ running w' = running w
  ∧ (logged w' = logged w ∨ ∃ line, logged w' = logged w ++ [line]).
Proof.
  unfold run_pass.
  destruct (checkpoint w) as [[w1 oe]| |] eqn:Hc; [|done..].
  destruct (checkpoint_frame _ _ _ Hc) as (Hcfg & Hi & Hq & Hr & _ & _ & Hlg).
  destruct oe as [e|].
  - intros ?; simplify_eq. simpl. rewrite Hi, Hcfg, Hq, Hr, Hlg.
    repeat split; try done. right. by eexists.
  - destruct (truncateSamples w1) as [w2 oe2] eqn:Ht.
    destruct (truncateSamples_frame _ _ _ Ht) as (Hcfg2 & Hi2 & Hq2 & Hr2 & _ & _ & Hlg2).
    destruct oe2 as [e|]; intros ?; simplify_eq; simpl.
    + rewrite Hi2, Hcfg2, Hq2, Hr2, Hlg2, Hi, Hcfg, Hq, Hr, Hlg.
      repeat split; try done. right. by eexists.
    + rewrite Hi2, Hcfg2, Hq2, Hr2, Hlg2, Hi, Hcfg, Hq, Hr, Hlg.
      repeat split; try done. by left.
Qed.



(** X18: After a successful truncation the tracker lags one pass behind: the
    next truncation discards the segments below the [last] segment that
    the previous one read. *)
Theorem truncateSamples_truncates_up_to_previous_last w w1 w2 :
  truncateSamples w = (w1, None) →
  truncateSamples w1 = (w2, None) →
  ∃ first last,
    wal_Segments (samples w) = Ok (first, last)
    ∧ wal_Truncate (samples w1) last = (samples w2, None).
Proof.
  unfold truncateSamples. intros Hpass1 Hpass2.
  destruct (wal_Segments (samples w)) as [[first last]|e]; [|by simplify_eq].
  destruct (wal_Truncate (samples w) (lastSamplesSegment w)) as [s' [e|]];
    simplify_eq. simpl in Hpass2.
  destruct (wal_Segments s') as [[first1 last1]|e]; [|by simplify_eq].
  destruct (wal_Truncate s' last) as [s'' [e|]] eqn:Ht; simplify_eq.
  exists first, last. done.
Qed.

(** ** Recovery *)

(** X19: [recover] is all or nothing for the ingester: when it returns an
    error the ingester's series are the ones it had, and when it
    succeeds they are the result of replaying the checkpoint log and
    then the sample log into an empty state.  It never touches the
    configuration, the two logs or the segment trackers. *)
Theorem recover_is_all_or_nothing disk w :
  (cfg (recover disk w).1 = cfg w
   ∧ samples (recover disk w).1 = samples w
   ∧ checkpoints (recover disk w).1 = checkpoints w
   ∧ lastCheckpointSegment (recover disk w).1 = lastCheckpointSegment w
   ∧ lastSamplesSegment (recover disk w).1 = lastSamplesSegment w)
  ∧ match (recover disk w).2 with
    | Some e => ingester (recover disk w).1 = ingester w
    | None =>
        ∃ st1 us lg,
          recoverRecords disk w "checkpoints" unmarshalSeries recover_series (∅, [])
          = (st1, None)
          ∧ recoverRecords disk w "samples" unmarshalRecord recover_record st1
            = ((us, lg), None)
          ∧ ingester (recover disk w).1 = mkIngester us
          ∧ logged (recover disk w).1 = logged w ++ lg
    end.
Proof.
  pose proof (recover_frame disk w) as Hf. simpl in Hf.
  destruct Hf as (Hc & _ & _ & Hlc & Hls & Hs & Hch & Hi).
  split; [done|].
  destruct (recover disk w).2 as [e|] eqn:He; [by apply Hi|].
  revert He. unfold recover.
  destruct (recoverRecords disk w "checkpoints" _ _ _) as [[us1 lg1] [e1|]] eqn:Hr1;
    [done|].
  destruct (recoverRecords disk w "samples" _ _ _) as [[us2 lg2] [e2|]] eqn:Hr2;
    [done|].
  intros _. exists (us1, lg1), us2, lg2. done.
Qed.

(** Replaying [l1 ++ l2] is replaying [l1] and, if that went through,
    [l2] from where it ended. *)
Lemma recoverRecords_loop_app {M : Type} (unmarshal : B → result error M)
    (callback : M → gmap string (gmap Z series) * list string
                → gmap string (gmap Z series) * list string * option error)
    (l1 l2 : list B) st :
  recoverRecords_loop unmarshal callback (l1 ++ l2) st
  = match recoverRecords_loop unmarshal callback l1 st with
    | (st', None) => recoverRecords_loop unmarshal callback l2 st'
    | r => r
    end.
Proof.
  revert st. induction l1 as [|buf l1 IH]; intros st; simpl; [done|].
  destruct (unmarshal buf) as [msg|e]; [|done].
  destruct (callback msg st) as [st' [e|]]; [done|]. apply IH.
Qed.

(** X20: A record that does not decode ends the replay of its log with the
    decoding error: the records before it have been replayed, the
    records after it are not looked at, and the reader's own error is
    not reported. *)
Theorem recoverRecords_stops_at_undecodable_record {M : Type} disk w (name : string)
    (unmarshal : B → result error M)
    (callback : M → gmap string (gmap Z series) * list string
                → gmap string (gmap Z series) * list string * option error)
    (l1 l2 : list B) (buf : B) (readerErr : option error) (e : error) st st1 :
  wal_NewSegmentsReader disk (path_Join (dir (cfg w)) name)
  = Ok (l1 ++ buf :: l2, readerErr) →
  unmarshal buf = Err e →
  recoverRecords_loop unmarshal callback l1 st = (st1, None) →
  recoverRecords disk w name unmarshal callback st = (st1, Some e).
Proof.
  intros Hopen Hbuf Hl1. unfold recoverRecords. rewrite Hopen.
  rewrite recoverRecords_loop_app, Hl1. simpl. by rewrite Hbuf.
Qed.

(** X21: Replaying samples neither adds nor removes a series, and only adds
    lines to the log. *)
Theorem recover_samples_keeps_the_set_of_series (ss : list (@Sample V)) state
    (lg : list string) :
  dom (recover_samples ss state lg).1 = dom state
  ∧ lg `prefix_of` (recover_samples ss state lg).2.
Proof.
  revert state lg. induction ss as [|sample ss IH]; intros state lg; simpl.
  { done. }
  destruct (state !! sample_Fingerprint sample) as [s|] eqn:Hs; [|done].
  destruct (add s _ _) as [s' oe].
  destruct (IH (<[sample_Fingerprint sample := s']> state)
               (match oe with
                | Some msg => lg ++ ["error appending sample: " +:+ msg]
                | None => lg
                end)) as [Hdom Hpre].
  split.
  - rewrite Hdom. by apply dom_insert_lookup_L.
  - etrans; [|exact Hpre]. destruct oe; [by apply prefix_app_r|done].
Qed.

(** X22: The replay of a record's samples ends at the first sample whose
    fingerprint has no series: everything behind it is dropped. *)
Theorem recover_samples_ends_at_first_unknown_fingerprint
    (ss1 ss2 : list (@Sample V)) (sample : @Sample V) state (lg : list string) :
  state !! sample_Fingerprint sample = None →
  recover_samples (ss1 ++ sample :: ss2) state lg = recover_samples ss1 state lg.
Proof.
  revert state lg. induction ss1 as [|a ss1 IH]; intros state lg Hnone; simpl.
  { by rewrite Hnone. }
  destruct (state !! sample_Fingerprint a) as [s|] eqn:Ha; [|done].
  destruct (add s _ _) as [s' oe]. apply IH.
  rewrite lookup_insert_ne; [done|]. congruence.
Qed.

(** X23: The label declarations of a record never replace a series that is
    there already, and when they all go through every declared
    fingerprint has a series. *)
Theorem recover_labels_creates_only_missing_series (ls : list Labels) state :
  (∀ fp s, state !! fp = Some s → (recover_labels ls state).1 !! fp = Some s)
  ∧ ((recover_labels ls state).2 = None →
     ∀ l, l ∈ ls → is_Some ((recover_labels ls state).1 !! labels_Fingerprint l)).
Proof.
  revert state. induction ls as [|l ls IH]; intros state; simpl.
  { split; [done|]. intros _ l Hl. by apply elem_of_nil in Hl. }
  destruct (state !! labels_Fingerprint l) as [s0|] eqn:Hl.
  - destruct (IH state) as [Hkeep Hall]. split; [done|].
    intros Hok l' Hl'. apply elem_of_cons in Hl' as [->|Hl']; [|by apply Hall].
    exists s0. by apply Hkeep.
  - unfold createSeriesWithFingerprint.
    destruct (createSeries state _ _) as [s1|e]; simpl; [|done].
    destruct (IH (<[labels_Fingerprint l := s1]> state)) as [Hkeep Hall]. split.
    + intros fp s Hfp. apply Hkeep. rewrite lookup_insert_ne; [done|]. congruence.
    + intros Hok l' Hl'. apply elem_of_cons in Hl' as [->|Hl']; [|by apply Hall].
      exists s1. apply Hkeep. by rewrite lookup_insert_eq.
Qed.

Lemma recover_labels_error (ls : list Labels) state (e : error) :
  (recover_labels ls state).2 = Some e →
  ∃ state' l, l ∈ ls
    ∧ createSeries state' (labels_Fingerprint l) (labels_Labels l) = Err e.
Proof.
  revert state. induction ls as [|l ls IH]; intros state; simpl; [done|].
  destruct (state !! labels_Fingerprint l) as [s0|].
  - intros He. destruct (IH _ He) as (state' & l' & Hl' & Hc).
    exists state', l'. split; [by apply elem_of_cons; right|done].
  - unfold createSeriesWithFingerprint.
    destruct (createSeries state _ _) as [s1|e1] eqn:Hc; simpl.
    + intros He. destruct (IH _ He) as (state' & l' & Hl' & Hc').
      exists state', l'. split; [by apply elem_of_cons; right|done].
    + intros ?; simplify_eq. exists state, l. split; [by apply elem_of_cons; left|done].
Qed.

(** X24: Replaying a record fails only when the tenant's state cannot be
    had or a declared series cannot be created; a sample that cannot be
    appended never makes it fail. *)
Theorem recover_record_fails_only_on_tenant_or_series_creation
    (record : WalRecord) (st : gmap string (gmap Z series) * list string) (e : error) :
  (recover_record record st).2 = Some e →
  getOrCreate_err (record_UserId record) = Some e
  ∨ ∃ state l, l ∈ record_Labels record
      ∧ createSeries state (labels_Fingerprint l) (labels_Labels l) = Err e.
Proof.
  destruct st as [us lg]. unfold recover_record, getOrCreate.
  destruct (getOrCreate_err (record_UserId record)) as [e0|] eqn:Hg.
  { simpl. intros ?; simplify_eq. by left. }
  intros He. right.
  assert (∀ us1 state,
            (match recover_labels (record_Labels record) state with
             | (state1, Some e1) =>
                 ((<[record_UserId record := state1]> us1, lg), Some e1)
             | (state1, None) =>
                 let '(state2, lg') :=
                   recover_samples (record_Samples record) state1 lg in
                 ((<[record_UserId record := state2]> us1, lg'), None)
             end).2 = Some e →
            (recover_labels (record_Labels record) state).2 = Some e) as Hlab.
  { intros us1 state.
    destruct (recover_labels (record_Labels record) state) as [state1 [e1|]]; [done|].
    by destruct (recover_samples _ _ _). }
  destruct (us !! record_UserId record) as [state|];
    apply Hlab in He; by apply recover_labels_error in He.
Qed.

(** ** The series a checkpoint visits *)

Lemma elem_of_live_series us (u : string) (fp : Z) (s : series) :
  (u, fp, s) ∈ live_series us ↔ ∃ state, us !! u = Some state ∧ state !! fp = Some s.
Proof.
  unfold live_series. rewrite list_elem_of_bind. split.
  - intros ([u' state] & Hin & Hu). apply list_elem_of_bind in Hin as ([fp' s'] & Hin & Hfp).
    apply list_elem_of_singleton in Hin. simplify_eq.
    exists state. split; by apply elem_of_map_to_list.
  - intros (state & Hu & Hfp). exists (u, state). split; [|by apply elem_of_map_to_list].
    apply list_elem_of_bind. exists (fp, s).
    split; [by apply list_elem_of_singleton|by apply elem_of_map_to_list].
Qed.


Lemma live_series_NoDup us : NoDup (live_series us).
Proof.
  unfold live_series. apply NoDup_bind.
  - intros [u1 st1] [u2 st2] [[u fp] s] Hx1 Hx2 Hy1 Hy2.
    apply list_elem_of_bind in Hy1 as ([fp1 s1] & Hy1 & Hz1).
    apply list_elem_of_bind in Hy2 as ([fp2 s2] & Hy2 & Hz2).
    apply list_elem_of_singleton in Hy1, Hy2. simplify_eq.
    apply elem_of_map_to_list in Hx1, Hx2. by simplify_eq.
  - intros [u st] _. apply NoDup_bind.
    + intros [fp1 s1] [fp2 s2] [[u' fp] s] _ _ Hy1 Hy2.
      apply list_elem_of_singleton in Hy1, Hy2. by simplify_eq.
    + intros [fp s] _. apply NoDup_singleton.
    + apply NoDup_map_to_list.
  - apply NoDup_map_to_list.
Qed.


(** ** From a checkpoint pass back to the series *)

(** X26: A pass that goes through hands the log one buffer per visited
    series, in the order of the visit, each holding the series' tenant,
    fingerprint, labels and wire chunks. *)
Theorem checkpoint_loop_logs_one_snapshot_per_series
    (l : list (string * Z * series)) (c c' : W) :
  checkpoint_loop l c = (c', None) →
  ∃ bufs, checkpoint_buffers l = Ok bufs
          ∧ length bufs = length l
          ∧ c' = foldl (λ c b, (wal_Log c b).1) c bufs.
Proof.
  revert c. induction l as [|[[u fp] s] l IH]; intros c Hloop; simpl in *.
  { simplify_eq. by exists []. }
  unfold checkpointSeries in Hloop.
  destruct (toWireChunks (chunkDescs s)) as [wc|e]; [|done].
  destruct (marshalSeries _) as [buf|e]; [|done].
  destruct (wal_Log c buf) as [c1 [e|]] eqn:Hlog; [done|].
  destruct (IH _ Hloop) as (bufs & -> & Hlen & ->).
  exists (buf :: bufs). simpl. rewrite Hlog. split; [done|]. split; [by rewrite Hlen|done].
Qed.

Lemma series_at_install us (x : string * Z * series) (u : string) (fp : Z) :
  series_at (install_series us x) u fp
  = if decide (x.1 = (u, fp)) then Some x.2 else series_at us u fp.
Proof.
  destruct x as [[u1 fp1] s1]. unfold series_at, install_series. simpl.
  destruct (decide (u1 = u)) as [->|Hu].
  - rewrite lookup_insert_eq. simpl.
    destruct (decide (fp1 = fp)) as [->|Hfp].
    + rewrite lookup_insert_eq. by rewrite decide_True.
    + rewrite lookup_insert_ne by done. rewrite decide_False by congruence.
      destruct (us !! u); simpl; [done|]. by rewrite lookup_empty.
  - rewrite lookup_insert_ne by done. rewrite decide_False by congruence. done.
Qed.

(** Installing triples with distinct keys: each of them can be read
    back, and nothing else changes. *)
Lemma series_at_foldl_install (l : list (string * Z * series)) us (u : string) (fp : Z) :
  NoDup (fst <$> l) →
  series_at (foldl install_series us l) u fp
  = match list_find (λ x, x.1 = (u, fp)) l with
    | Some (_, x) => Some x.2
    | None => series_at us u fp
    end.
Proof.
  revert us. induction l as [|x l IH]; intros us Hnd; [done|].
  rewrite fmap_cons in Hnd. apply NoDup_cons in Hnd as [Hnotin Hnd].
  simpl foldl. rewrite IH by done. cbn [list_find].
  destruct (decide (x.1 = (u, fp))) as [Hx|Hx].
  - destruct (list_find (λ x0, x0.1 = (u, fp)) l) as [[i y]|] eqn:Hfind; simpl.
    + apply list_find_Some in Hfind as (Hy & Hkey & _).
      destruct Hnotin. rewrite Hx, <- Hkey.
      apply list_elem_of_fmap_2. by eapply list_elem_of_lookup_2.
    + rewrite series_at_install. by rewrite decide_True.
  - destruct (list_find (λ x0, x0.1 = (u, fp)) l) as [[i y]|]; simpl; [done|].
    rewrite series_at_install. by rewrite decide_False.
Qed.

Lemma live_series_keys_NoDup us : NoDup (fst <$> live_series us).
Proof.
  apply NoDup_fmap_2_strong; [|apply live_series_NoDup].
  intros [[u1 fp1] s1] [[u2 fp2] s2] Hin1 Hin2 Hkey. simpl in Hkey. simplify_eq.
  apply elem_of_live_series in Hin1 as (st1 & Hu1 & Hfp1).
  apply elem_of_live_series in Hin2 as (st2 & Hu2 & Hfp2). by simplify_eq.
Qed.

Lemma series_at_install_live_series us (u : string) (fp : Z) :
  series_at (foldl install_series ∅ (live_series us)) u fp = series_at us u fp.
Proof.
  rewrite series_at_foldl_install by apply live_series_keys_NoDup.
  destruct (list_find _ (live_series us)) as [[i [[u1 fp1] s1]]|] eqn:Hfind.
  - apply list_find_Some in Hfind as (Hin & Hkey & _). simpl in Hkey. simplify_eq.
    apply list_elem_of_lookup_2, elem_of_live_series in Hin as (state & Hu & Hfp).
    unfold series_at. rewrite Hu. simpl. by rewrite Hfp.
  - simpl. destruct (series_at us u fp) as [s|] eqn:Hs; [|done].
    unfold series_at in Hs. destruct (us !! u) as [state|] eqn:Hu; [|done].
    simpl in Hs.
    assert ((u, fp, s) ∈ live_series us) as Hin
      by (apply elem_of_live_series; by exists state).
    apply list_elem_of_lookup_1 in Hin as [i Hi].
    eapply list_find_None in Hfind. rewrite Forall_forall in Hfind.
    destruct (Hfind (u, fp, s)); [by eapply list_elem_of_lookup_2|done].
Qed.

Lemma recover_series_tail (u : string) (fp : Z) (s : series) us us1
    (state : gmap Z series) (lg : list string) :
  (∀ state, ∃ s0, createSeries state fp (labels s) = Ok s0
                  ∧ setChunks s0 (chunkDescs s) = Ok s) →
  state = default ∅ (us !! u) →
  <[u := state]> us1 = <[u := state]> us →
  match createSeries state fp (labels s) with
  | Ok s1 =>
      match setChunks s1 (chunkDescs s) with
      | Ok s' => ((<[u := <[fp := s']> (<[fp := s1]> state)]> us1, lg), None)
      | Err e => ((<[u := <[fp := s1]> (<[fp := s1]> state)]> us1, lg), Some e)
      end
  | Err e => ((us1, lg), Some e)
  end = ((install_series us (u, fp, s), lg), None).
Proof.
  intros Hre -> Hus1. destruct (Hre (default ∅ (us !! u))) as (s0 & -> & ->).
  rewrite insert_insert_eq. unfold install_series. do 2 f_equal.
  rewrite <- (insert_insert_eq us1 u (<[fp:=s]> (default ∅ (us !! u)))
                (default ∅ (us !! u))), Hus1.
  by rewrite insert_insert_eq.
Qed.

(** Replaying one snapshot puts the series back. *)
Lemma recover_series_installs (u : string) (fp : Z) (s : series) (wc : list chunk)
    us (lg : list string) :
  getOrCreate_err u = None →
  fromWireChunks wc = Ok (chunkDescs s) →
  (∀ state, ∃ s0, createSeries state fp (labels s) = Ok s0
                  ∧ setChunks s0 (chunkDescs s) = Ok s) →
  recover_series (mkSeries u fp (labels s) wc) (us, lg)
  = ((install_series us (u, fp, s), lg), None).
Proof.
  intros Hu Hwc Hre. unfold recover_series, getOrCreate, createSeriesWithFingerprint.
  simpl. rewrite Hwc, Hu.
  destruct (us !! u) as [state|] eqn:Hlook.
  - pose proof (recover_series_tail u fp s us us state lg Hre) as Hgen.
    unfold install_series in Hgen. rewrite Hlook in Hgen.
    specialize (Hgen eq_refl eq_refl).
    destruct (createSeries state fp (labels s)) as [s1|e]; [|done].
    destruct (setChunks s1 (chunkDescs s)); exact Hgen.
  - pose proof (recover_series_tail u fp s us (<[u := ∅]> us) ∅ lg Hre) as Hgen.
    unfold install_series in Hgen. rewrite Hlook in Hgen.
    specialize (Hgen eq_refl (insert_insert_eq _ _ _ _)).
    destruct (createSeries ∅ fp (labels s)) as [s1|e]; [|done].
    destruct (setChunks s1 (chunkDescs s)); exact Hgen.
Qed.

Lemma replay_checkpoint_buffers (l : list (string * Z * series)) (bufs : list B)
    us (lg : list string) :
  (∀ x b, marshalSeries x = Ok b → unmarshalSeries b = Ok x) →
  (∀ d wc, toWireChunks d = Ok wc → fromWireChunks wc = Ok d) →
  (∀ u, getOrCreate_err u = None) →
  Forall (λ x, ∀ state, ∃ s0, createSeries state x.1.2 (labels x.2) = Ok s0
                              ∧ setChunks s0 (chunkDescs x.2) = Ok x.2) l →
  checkpoint_buffers l = Ok bufs →
  recoverRecords_loop unmarshalSeries recover_series bufs (us, lg)
  = ((foldl install_series us l, lg), None).
Proof.
  intros Hcodec Hchunks Htenant Hall. revert bufs us.
  induction Hall as [|[[u fp] s] l Hx Hall IH]; intros bufs us Hbufs;
    cbn [checkpoint_buffers] in Hbufs.
  { by simplify_eq. }
  destruct (toWireChunks (chunkDescs s)) as [wc|e] eqn:Hwc; [|done].
  destruct (marshalSeries _) as [buf|e] eqn:Hbuf; [|done].
  destruct (checkpoint_buffers l) as [bufs'|e]; [|done]. simplify_eq.
  cbn [recoverRecords_loop foldl]. simpl in Hx.
  rewrite (Hcodec _ _ Hbuf).
  rewrite (recover_series_installs u fp s wc us lg); [|done|by apply Hchunks|done].
  by apply IH.
Qed.

(** X27: Checkpoint and recovery fit together: when the codec and the chunk
    conversion undo each other, every tenant has a state, and a series
    is rebuilt from its labels and chunk descriptors, replaying the
    snapshots of a checkpoint pass over [us] into an empty state puts
    every series of [us] back under its tenant and fingerprint, and
    nothing else. *)
Theorem replaying_a_checkpoint_restores_every_series us (bufs : list B) :
  (∀ x b, marshalSeries x = Ok b → unmarshalSeries b = Ok x) →
  (∀ d wc, toWireChunks d = Ok wc → fromWireChunks wc = Ok d) →
  (∀ u, getOrCreate_err u = None) →
  (∀ u fp s state, series_at us u fp = Some s →
     ∃ s0, createSeries state fp (labels s) = Ok s0
           ∧ setChunks s0 (chunkDescs s) = Ok s) →
  checkpoint_buffers (live_series us) = Ok bufs →
  ∃ us',
    recoverRecords_loop unmarshalSeries recover_series bufs (∅, []) = ((us', []), None)
    ∧ ∀ u fp, series_at us' u fp = series_at us u fp.
Proof.
  intros Hcodec Hchunks Htenant Hrebuild Hbufs.
  exists (foldl install_series ∅ (live_series us)). split.
  - apply (replay_checkpoint_buffers (live_series us)); try done.
    apply Forall_forall. intros [[u fp] s] Hin state. simpl.
    apply (Hrebuild u fp s state).
    apply elem_of_live_series in Hin as (st & Hu & Hfp).
    unfold series_at. rewrite Hu. simpl. by rewrite Hfp.
  - apply series_at_install_live_series.
Qed.

End WalMore.

(** ** The model on concrete logs *)

Import Simple Examples.

(** C2 fails on the code: replaying a record whose first sample has no
    series ends the replay of that record.  The second sample of
    [record1], at time 20 for the present series 2, is not appended;
    replay goes on with [record2], whose sample at time 30 is.  Nothing is
    logged and recovery succeeds. *)
Theorem recover_skips_rest_of_record_after_unknown_fingerprint :
  ∃ w',
    recover (disk samples_log empty_log (λ _, None))
            (fresh_wrapper idle_ingester samples_log empty_log) = (w', None)
    ∧ logged w' = []
    ∧ (userStates_ (ingester w') !! "tenant-1") ≫= (λ state, state !! 2)
      = Some (mkMemorySeries [("job", "api")] [] [(30, 7)])
    ∧ recover_samples (record_Samples record1)
        {[ 2 := mkMemorySeries [("job", "api")] [] [] ]} []
      = ({[ 2 := mkMemorySeries [("job", "api")] [] [] ]}, []).
Proof.
  eexists. split; [vm_compute; reflexivity|].
  split; [reflexivity|]. split; [vm_compute; reflexivity|].
  apply recover_samples_unknown_fingerprint. reflexivity.
Qed.

Lemma newWAL_drops_recover_error_witness :
  (recover (disk samples_log broken_checkpoints_log (λ _, None))
     (mkWrapper config idle_ingester false false 0 0 samples_log
        broken_checkpoints_log [])).2 = Some "proto: cannot parse series"
  ∧ ∃ w, newWAL (disk samples_log broken_checkpoints_log (λ _, None))
           config idle_ingester = Ok (enabled_wal w)
         ∧ ingester w = idle_ingester ∧ running w = true ∧ quit_closed w = false.
Proof.
  split; [vm_compute; reflexivity|].
  apply (newWAL_drops_recover_error
           (disk samples_log broken_checkpoints_log (λ _, None))
           config idle_ingester samples_log broken_checkpoints_log
           "proto: cannot parse series");
    vm_compute; reflexivity.
Defined.

(** C5, as stated, fails: the second [Stop] on an enabled WAL is not a
    no-op, it panics. *)
Lemma Stop_twice_panics_on_example :
  ∃ w1, Stop (fresh_wrapper idle_ingester samples_log checkpoints_log) = Done w1
        ∧ Stop w1 = Panics
        ∧ Stop w1 ≠ Done w1.
Proof.
  eexists. split; [reflexivity|]. split; [reflexivity|]. discriminate.
Qed.

Lemma Stop_after_Stop_panics_witness :
  ∃ w1, Stop (fresh_wrapper idle_ingester samples_log checkpoints_log) = Done w1
        ∧ quit_closed w1 = true ∧ running w1 = false ∧ Stop w1 = Panics.
Proof.
  eexists. split; [reflexivity|].
  apply (Stop_after_Stop_panics
           (fresh_wrapper idle_ingester samples_log checkpoints_log)).
  reflexivity.
Defined.

(** C7, as stated, fails: with no live series [checkpoint] succeeds, the
    checkpoint log's last segment is 3, and [lastCheckpointSegment] is
    still 1. *)
Lemma checkpoint_without_series_keeps_tracker :
  checkpoint (fresh_wrapper idle_ingester samples_log checkpoints_log)
  = Done (fresh_wrapper idle_ingester samples_log checkpoints_log, None)
  ∧ wal_Segments checkpoints_log = Ok (0, 3)
  ∧ lastCheckpointSegment (fresh_wrapper idle_ingester samples_log checkpoints_log) = 1
  ∧ ¬ (∃ w' first last,
         checkpoint (fresh_wrapper idle_ingester samples_log checkpoints_log)
         = Done (w', None)
         ∧ wal_Segments (checkpoints w') = Ok (first, last)
         ∧ lastCheckpointSegment w' = last).
Proof.
  split; [vm_compute; reflexivity|]. split; [reflexivity|].
  split; [reflexivity|].
  intros (w' & first & last & Hc & Hseg & Hlast).
  assert (w' = fresh_wrapper idle_ingester samples_log checkpoints_log) as ->
    by (vm_compute in Hc; by simplify_eq).
  vm_compute in Hseg. vm_compute in Hlast. simplify_eq.
Qed.

Lemma segment_trackers_witness :
  ∃ w', checkpoint (fresh_wrapper busy_ingester samples_log checkpoints_log)
        = Done (w', None)
        ∧ lastCheckpointSegment w' = 3.
Proof.
  pose proof (segment_trackers_follow_successful_truncate
                (fresh_wrapper busy_ingester samples_log checkpoints_log)) as H.
  destruct H as [Hc _].
  destruct (checkpoint _) as [[w' [e|]]| |] eqn:E.
  - vm_compute in E. discriminate.
  - exists w'. split; [reflexivity|].
    destruct (decide _) as [Hz|_]; [vm_compute in Hz; discriminate|].
    destruct Hc as (c & first & last & Hloop & Hseg & Htr & Hlast).
    vm_compute in Hloop. injection Hloop as <-.
    vm_compute in Hseg. injection Hseg as <- <-.
    exact Hlast.
  - vm_compute in E. discriminate.
  - vm_compute in E. discriminate.
Defined.

(** ** More runs on concrete logs *)

Import Faulty.


Lemma run_pass_failed_checkpoint_witness :
  ∃ w', run_pass (H:=unencodable_store)
          (fresh_wrapper busy_ingester samples_log checkpoints_log) = Done w'
        ∧ samples w' = samples_log
        ∧ lastSamplesSegment w' = 1
        ∧ lastCheckpointSegment w' = 1
        ∧ logged w' = [] ++ ["Error checkpointing series: " +:+ "chunk cannot be encoded"].
Proof.
  apply (run_pass_failed_checkpoint_skips_truncation (H:=unencodable_store)
           (fresh_wrapper busy_ingester samples_log checkpoints_log)
           (fresh_wrapper busy_ingester samples_log checkpoints_log)
           "chunk cannot be encoded").
  vm_compute. reflexivity.
Defined.

Lemma run_pass_only_reads_series_witness :
  ∃ w', run_pass (fresh_wrapper busy_ingester samples_log checkpoints_log) = Done w'
        ∧ ingester w' = busy_ingester.
Proof.
  destruct (run_pass (fresh_wrapper busy_ingester samples_log checkpoints_log))
    as [w'| |] eqn:Hpass.
  - exists w'. split; [reflexivity|].
    by apply run_pass_only_reads_series in Hpass as [Hi _].
  - vm_compute in Hpass. discriminate.
  - vm_compute in Hpass. discriminate.
Defined.

Lemma truncateSamples_previous_last_witness :
  ∃ first last,
    wal_Segments (samples (fresh_wrapper idle_ingester checkpoints_log empty_log))
    = Ok (first, last)
    ∧ wal_Truncate
        (samples (truncateSamples
                    (fresh_wrapper idle_ingester checkpoints_log empty_log)).1) last
      = (samples (truncateSamples
                    (truncateSamples
                       (fresh_wrapper idle_ingester checkpoints_log empty_log)).1).1,
         None).
Proof.
  apply (truncateSamples_truncates_up_to_previous_last
           (fresh_wrapper idle_ingester checkpoints_log empty_log)).
  - vm_compute. reflexivity.
  - vm_compute. reflexivity.
Defined.

Lemma recoverRecords_undecodable_record_witness :
  recoverRecords
    (disk (mkLog 0 0 [(0, RecordEntry record2); (0, Garbage); (0, RecordEntry record1)]
             false) empty_log (λ _, Some "unexpected EOF"))
    (fresh_wrapper idle_ingester samples_log empty_log) "samples"
    unmarshalRecord recover_record (∅, [])
  = ((recoverRecords_loop unmarshalRecord recover_record [RecordEntry record2]
        (∅, [])).1,
     Some "proto: cannot parse record").
Proof.
  apply (recoverRecords_stops_at_undecodable_record
           (disk (mkLog 0 0 [(0, RecordEntry record2); (0, Garbage);
                             (0, RecordEntry record1)] false)
                 empty_log (λ _, Some "unexpected EOF"))
           (fresh_wrapper idle_ingester samples_log empty_log) "samples"
           unmarshalRecord recover_record
           [RecordEntry record2] [RecordEntry record1] Garbage
           (Some "unexpected EOF")).
  - vm_compute. reflexivity.
  - reflexivity.
  - vm_compute. reflexivity.
Defined.

Lemma recover_samples_first_unknown_witness :
  recover_samples
    ([mkSample 2 10 5] ++ mkSample 1 15 6 :: [mkSample 2 20 7])
    {[ 2 := mkMemorySeries [("job", "api")] [] [] ]} []
  = recover_samples [mkSample 2 10 5]
      {[ 2 := mkMemorySeries [("job", "api")] [] [] ]} [].
Proof.
  apply (recover_samples_ends_at_first_unknown_fingerprint
           [mkSample 2 10 5] [mkSample 2 20 7] (mkSample 1 15 6)).
  vm_compute. reflexivity.
Defined.

Lemma recover_record_fails_witness :
  getOrCreate_err (MemoryStore:=limited_store) "tenant-1"
  = Some "per-user series limit exceeded"
  ∨ ∃ state l,
      l ∈ [mkLabels 1 [("job", "api")]; mkLabels 2 [("job", "db")]]
      ∧ createSeries (MemoryStore:=limited_store) state (labels_Fingerprint l)
          (labels_Labels l)
        = Err "per-user series limit exceeded".
Proof.
  apply (recover_record_fails_only_on_tenant_or_series_creation (H:=limited_store)
           (mkRecord "tenant-1"
              [mkLabels 1 [("job", "api")]; mkLabels 2 [("job", "db")]] [])
           (∅, [])).
  vm_compute. reflexivity.
Defined.

Lemma checkpoint_loop_logs_witness :
  ∃ bufs,
    checkpoint_buffers (live_series (userStates_ busy_ingester)) = Ok bufs
    ∧ length bufs = length (live_series (userStates_ busy_ingester))
    ∧ (checkpoint_loop (live_series (userStates_ busy_ingester)) checkpoints_log).1
      = foldl (λ c b, (wal_Log c b).1) checkpoints_log bufs.
Proof.
  apply (checkpoint_loop_logs_one_snapshot_per_series
           (live_series (userStates_ busy_ingester)) checkpoints_log).
  vm_compute. reflexivity.
Defined.

Lemma replaying_a_checkpoint_witness :
  ∃ us',
    recoverRecords_loop unmarshalSeries recover_series
      [SeriesEntry (mkSeries "tenant-1" 2 [("job", "api")] [7%nat])] (∅, [])
    = ((us', []), None)
    ∧ ∀ u fp, series_at us' u fp = series_at (userStates_ busy_ingester) u fp.
Proof.
  apply (replaying_a_checkpoint_restores_every_series (userStates_ busy_ingester)).
  - intros x b Hm. simpl in Hm. by simplify_eq.
  - intros d wc Hw. simpl in Hw. by simplify_eq.
  - reflexivity.
  - intros u fp s state Hs. unfold series_at, busy_ingester in Hs. simpl in Hs.
    apply bind_Some in Hs as (state0 & Hu & Hfp).
    apply lookup_singleton_Some in Hu as [<- <-].
    apply lookup_singleton_Some in Hfp as [<- <-].
    eexists. split; reflexivity.
  - vm_compute. reflexivity.
Defined.
